(** * dsc40graph: adjacency-set graphs, embedded and verified

    A shallow embedding of [src/dsc40graph.py].  Python dictionaries are
    finite maps ([gmap]), Python sets are finite sets ([gset]); a method
    that mutates [self] is a computation in a state-and-exception monad
    whose exceptions keep the state reached when they were raised, since a
    Python exception does not undo the mutations made before it. *)

From stdpp Require Import gmap strings list fin_maps fin_sets.

Local Open Scope Z_scope.

(** ** Exceptions and the method monad *)

Inductive exn :=
  | KeyError
  | ValueError (msg : string)
  | RuntimeError (msg : string).

(** Result of a pure look-up that may raise. *)
Inductive except (A : Type) :=
  | Ok (a : A)
  | Err (e : exn).
Arguments Ok {A} a.
Arguments Err {A} e.

(** Result of running a method on an object whose state has type [S]. *)
Inductive result (S A : Type) :=
  | Done (a : A) (s : S)
  | Raised (e : exn) (s : S).
Arguments Done {S A} a s.
Arguments Raised {S A} e s.

Definition M (S A : Type) : Type := S → result S A.

Definition raise {S A} (e : exn) : M S A := λ s, Raised e s.
Definition gets {S A} (f : S → A) : M S A := λ s, Done (f s) s.
Definition modify {S} (f : S → S) : M S unit := λ s, Done tt (f s).
Definition lift_except {S A} (f : S → except A) : M S A :=
  λ s, match f s with Ok a => Done a s | Err e => Raised e s end.

(** [x ← m; k] and [m;; k] are stdpp's notations for [mbind]. *)
#[export] Instance M_ret {S} : MRet (M S) := λ A a s, Done a s.
#[export] Instance M_bind {S} : MBind (M S) := λ A B k m s,
  match m s with
  | Done a s' => k a s'
  | Raised e s' => Raised e s'
  end.

(** [for x in l: body x] *)
Fixpoint for_each {S A} (l : list A) (body : A → M S unit) : M S unit :=
  match l with
  | [] => mret tt
  | x :: l' => body x;; for_each l' body
  end.

(** The state an object is left in, whether the call returned or raised. *)
Definition state_after {S A} (r : result S A) : S :=
  match r with Done _ s => s | Raised _ s => s end.

Section Graphs.
Context {K : Type} `{Countable K}.

(** [d[k]] on a dictionary: [KeyError] when [k] is missing. *)
Definition dict_getitem {V} (d : gmap K V) (k : K) : except V :=
  match d !! k with
  | Some x => Ok x
  | None => Err KeyError
  end.

(** ** Edge views *)

(** [_EdgeView.__init__]: the adjacency it looks into and the edge count
    captured when the view was made. *)
Record EdgeView := mkEdgeView {
  _adj : gmap K (gset K);
  view_number_of_edges : Z
}.

(** [_EdgeView.__contains__]: [v in self._adj[u]], with the [KeyError] of a
    missing [u] caught and turned into [False]. *)
Definition contains (view : EdgeView) (edge : K * K) : except bool :=
  let '(u, v) := edge in
  match dict_getitem (_adj view) u with
  | Ok s => Ok (bool_decide (v ∈ s))
  | Err KeyError => Ok false
  | Err e => Err e
  end.

(** [_EdgeView.__len__] *)
Definition len (view : EdgeView) : Z := view_number_of_edges view.

(** [frozenset((u, v))] *)
Definition frozenset (edge : K * K) : gset K := {[ edge.1; edge.2 ]}.

(** [_UndirectedEdgeView.__iter__], as the list of the pairs it yields.
    [items] is the order in which [self._adj.items()] and the neighbour
    sets are enumerated; the inner loop returns the pairs yielded for one
    node together with the updated [seen]. *)
Fixpoint undirected_iter_inner (u : K) (neighbors : list K)
    (seen : gset (gset K)) : list (K * K) * gset (gset K) :=
  match neighbors with
  | [] => ([], seen)
  | v :: rest =>
      let edge := frozenset (u, v) in
      if decide (edge ∉ seen) then
        let '(out, seen') := undirected_iter_inner u rest ({[ edge ]} ∪ seen) in
        ((u, v) :: out, seen')
      else undirected_iter_inner u rest seen
  end.

Fixpoint undirected_iter_outer (items : list (K * list K))
    (seen : gset (gset K)) : list (K * K) :=
  match items with
  | [] => []
  | (u, neighbors) :: rest =>
      let '(out, seen') := undirected_iter_inner u neighbors seen in
      out ++ undirected_iter_outer rest seen'
  end.

Definition undirected_iter_from (items : list (K * list K)) : list (K * K) :=
  undirected_iter_outer items ∅.

(** [_DirectedEdgeView.__iter__] over a given enumeration. *)
Definition directed_iter_from (items : list (K * list K)) : list (K * K) :=
  '(u, neighbors) ← items; v ← neighbors; [(u, v)].

(** The enumeration order of dictionaries and sets that the model fixes
    where the code iterates: stdpp's.  Python's own order (insertion order
    for [dict], hash order for [set]) is not modelled; statements about
    iteration are made for every enumeration, see [enumerates]. *)
Definition dict_items (d : gmap K (gset K)) : list (K * list K) :=
  (λ p, (p.1, elements p.2)) <$> map_to_list d.

Definition undirected_iter (view : EdgeView) : list (K * K) :=
  undirected_iter_from (dict_items (_adj view)).

Definition directed_iter (view : EdgeView) : list (K * K) :=
  directed_iter_from (dict_items (_adj view)).

(** In-edge test on a dictionary of sets: [u] is a key and [v] is in its
    set. *)
Definition has_edge (d : gmap K (gset K)) (u v : K) : Prop :=
  v ∈ default ∅ (d !! u).

#[global] Instance has_edge_dec d u v : Decision (has_edge d u v).
Proof. unfold has_edge. apply _. Defined.

(** [items] is a possible iteration order of the dictionary [d]: every key
    once, each with the members of its set listed once. *)
Definition enumerates (d : gmap K (gset K)) (items : list (K * list K)) : Prop :=
  NoDup items.*1 ∧
  Forall (λ p, NoDup p.2 ∧ d !! p.1 = Some (list_to_set p.2)) items ∧
  dom d ⊆ list_to_set items.*1.

(** The invariants of the data model, as checks on a dictionary. *)
Definition symmetric (d : gmap K (gset K)) : Prop :=
  map_Forall (λ u s, set_Forall (λ v, has_edge d v u) s) d.

Definition loop_free (d : gmap K (gset K)) : Prop :=
  map_Forall (λ u s, u ∉ s) d.

#[global] Instance enumerates_dec d items : Decision (enumerates d items).
Proof. unfold enumerates. apply _. Defined.
#[global] Instance symmetric_dec d : Decision (symmetric d).
Proof. unfold symmetric. apply _. Defined.
#[global] Instance loop_free_dec d : Decision (loop_free d).
Proof. unfold loop_free. apply _. Defined.

(** All pairs [(u, v)] with [v] in the set of [u], and the unordered pairs
    they connect. *)
Definition edge_pairs (d : gmap K (gset K)) : list (K * K) :=
  directed_iter_from (dict_items d).

Definition unordered_pairs (d : gmap K (gset K)) : gset (gset K) :=
  list_to_set (frozenset <$> edge_pairs d).

(** ** The base class [_Graph] *)

Record Graph := mkGraph {
  adj : gmap K (gset K);
  _number_of_edges : Z
}.

(** [_Graph.__init__] *)
Definition Graph_init : Graph := mkGraph ∅ 0.

Definition set_adj (f : gmap K (gset K) → gmap K (gset K)) (g : Graph) : Graph :=
  mkGraph (f (adj g)) (_number_of_edges g).

Definition add_to_count (d : Z) (g : Graph) : Graph :=
  mkGraph (adj g) (_number_of_edges g + d).

(** [self.adj.keys()] *)
Definition nodes (g : Graph) : gset K := dom (adj g).

(** [self._edge_view_factory(self.adj, self._number_of_edges)] *)
Definition edges (g : Graph) : EdgeView := mkEdgeView (adj g) (_number_of_edges g).

(** [self.adj[k]], [self.adj[k] = s], [del self.adj[k]] *)
Definition adj_getitem (k : K) : M Graph (gset K) :=
  lift_except (λ g, dict_getitem (adj g) k).
Definition adj_setitem (k : K) (s : gset K) : M Graph unit :=
  modify (set_adj (<[k := s]>)).
Definition adj_delitem (k : K) : M Graph unit :=
  _ ← adj_getitem k; modify (set_adj (delete k)).

(** [self.adj[k].add(x)] and [self.adj[k].discard(x)] *)
Definition adj_add (k x : K) : M Graph unit :=
  s ← adj_getitem k; adj_setitem k (s ∪ {[ x ]}).
Definition adj_discard (k x : K) : M Graph unit :=
  s ← adj_getitem k; adj_setitem k (s ∖ {[ x ]}).

(** [_Graph.add_node] *)
Definition add_node (label : K) : M Graph unit :=
  known ← gets (λ g, bool_decide (label ∈ nodes g));
  if negb known then adj_setitem label ∅ else mret tt.

End Graphs.

Arguments EdgeView K {_ _}.
Arguments Graph K {_ _}.

(** ** [UndirectedGraph] *)

Module UndirectedGraph.
Section Defs.
Context {K : Type} `{Countable K}.

(** No field beyond those of [_Graph]; the edge view is
    [_UndirectedEdgeView]. *)
Definition init : Graph K := Graph_init.

Definition add_edge (u_label v_label : K) : M (Graph K) unit :=
  if decide (u_label = v_label) then
    raise (ValueError "Undirected graphs have no self loops.")
  else
    for_each (elements ({[ u_label; v_label ]} : gset K)) (λ x,
      known ← gets (λ g, bool_decide (x ∈ dom (adj g)));
      if negb known then adj_setitem x ∅ else mret tt);;
    present ← lift_except (λ g, contains (edges g) (u_label, v_label));
    if negb present then
      adj_add u_label v_label;;
      adj_add v_label u_label;;
      modify (add_to_count 1)
    else mret tt.

(** The loop of [remove_node] iterates over the set [self.adj[label]]
    itself; when a neighbour is [label] the body shrinks that very set and
    the next step of the iteration raises [RuntimeError]. *)
Definition remove_node (label : K) : M (Graph K) unit :=
  known ← gets (λ g, bool_decide (label ∈ nodes g));
  if negb known then mret tt
  else
    neighbors ← adj_getitem label;
    for_each (elements neighbors) (λ neighbor,
      adj_discard neighbor label;;
      modify (add_to_count (-1));;
      if decide (neighbor = label)
      then raise (RuntimeError "Set changed size during iteration")
      else mret tt);;
    adj_delitem label.

Definition neighbors (u_label : K) : M (Graph K) (gset K) :=
  adj_getitem u_label.

(** Calls a client can make, and a run of them from a new graph.  A call
    that raises leaves the graph as it was when the exception left it. *)
Inductive call :=
  | AddNode (label : K)
  | AddEdge (u v : K)
  | RemoveNode (label : K).

Definition perform (c : call) : M (Graph K) unit :=
  match c with
  | AddNode label => add_node label
  | AddEdge u v => add_edge u v
  | RemoveNode label => remove_node label
  end.

Definition run (calls : list call) : Graph K :=
  foldl (λ g c, state_after (perform c g)) init calls.

(** The data-model invariants of an undirected graph: symmetric
    adjacency, no self-loop, and an edge counter equal to the number of
    unordered pairs that are connected. *)
Definition invariant (g : Graph K) : Prop :=
  symmetric (adj g) ∧ loop_free (adj g) ∧
  _number_of_edges g = Z.of_nat (size (unordered_pairs (adj g))).

End Defs.
Arguments call K : clear implicits.
End UndirectedGraph.

(** A path 1 - 2 - 3, with one order in which Python may enumerate it, and
    an adjacency that is not symmetric. *)
Definition path_adj : gmap Z (gset Z) :=
  {[ 1 := {[ 2 ]}; 2 := {[ 1; 3 ]}; 3 := {[ 2 ]} ]}.
Definition path_items : list (Z * list Z) :=
  [(2, [3; 1]); (1, [2]); (3, [2])].
Definition lopsided : Graph Z :=
  mkGraph {[ 1 := {[ 2 ]}; 2 := ∅ ]} 1.

(** ** [DirectedGraph] *)

Module DirectedGraph.
Section Defs.
Context {K : Type} `{Countable K}.

(** The fields of [_Graph] and [back_adj]. *)
Record t := mk {
  base : Graph K;
  back_adj : gmap K (gset K)
}.

Definition init : t := mk Graph_init ∅.

(** A method inherited from [_Graph] runs on the inherited fields. *)
Definition inherited {A} (m : M (Graph K) A) : M t A :=
  λ g, match m (base g) with
       | Done a b => Done a (mk b (back_adj g))
       | Raised e b => Raised e (mk b (back_adj g))
       end.

Definition back_getitem (k : K) : M t (gset K) :=
  lift_except (λ g, dict_getitem (back_adj g) k).
Definition back_setitem (k : K) (s : gset K) : M t unit :=
  modify (λ g, mk (base g) (<[k := s]> (back_adj g))).
Definition back_add (k x : K) : M t unit :=
  s ← back_getitem k; back_setitem k (s ∪ {[ x ]}).
Definition back_discard (k x : K) : M t unit :=
  s ← back_getitem k; back_setitem k (s ∖ {[ x ]}).

Definition add_node (label : K) : M t unit := inherited (add_node label).
Definition nodes (g : t) : gset K := nodes (base g).
Definition edges (g : t) : EdgeView K := edges (base g).
Definition edge_count (g : t) : Z := _number_of_edges (base g).

Definition add_edge (u_label v_label : K) : M t unit :=
  for_each (elements ({[ u_label; v_label ]} : gset K)) (λ x,
    known ← gets (λ g, bool_decide (x ∈ dom (adj (base g))));
    (if negb known then inherited (adj_setitem x ∅) else mret tt);;
    known_back ← gets (λ g, bool_decide (x ∈ dom (back_adj g)));
    if negb known_back then back_setitem x ∅ else mret tt);;
  inherited (adj_add u_label v_label);;
  back_add v_label u_label;;
  inherited (modify (add_to_count 1)).

Definition remove_node (node : K) : M t unit :=
  known ← gets (λ g, bool_decide (node ∈ nodes g));
  if negb known then mret tt
  else
    b ← back_getitem node;
    (if decide (node ∈ b) then
       inherited (adj_discard node node);;
       back_discard node node;;
       inherited (modify (add_to_count (-1)))
     else mret tt);;
    parents ← back_getitem node;
    for_each (elements parents) (λ parent,
      inherited (adj_discard parent node);;
      inherited (modify (add_to_count (-1))));;
    out ← inherited (adj_getitem node);
    inherited (modify (add_to_count (- Z.of_nat (size out))));;
    inherited (adj_delitem node).

Definition predecessors (node : K) : M t (gset K) := back_getitem node.
Definition successors (node : K) : M t (gset K) := inherited (adj_getitem node).
Definition neighbors (node : K) : M t (gset K) := successors node.

Inductive call :=
  | AddNode (label : K)
  | AddEdge (u v : K)
  | RemoveNode (label : K).

Definition perform (c : call) : M t unit :=
  match c with
  | AddNode label => add_node label
  | AddEdge u v => add_edge u v
  | RemoveNode label => remove_node label
  end.

Definition run (calls : list call) : t :=
  foldl (λ g c, state_after (perform c g)) init calls.

(** The two maps describe the same edges and have the same keys. *)
Definition consistent (g : t) : Prop :=
  (∀ u v, has_edge (adj (base g)) u v ↔ has_edge (back_adj g) v u) ∧
  dom (adj (base g)) = dom (back_adj g).

End Defs.
Arguments t K {_ _}.
Arguments call K : clear implicits.
End DirectedGraph.

(** A directed graph with the edges 1 → 2, 2 → 2 and 2 → 3. *)
Definition directed_example : DirectedGraph.t Z :=
  DirectedGraph.run
    [DirectedGraph.AddEdge 1 2; DirectedGraph.AddEdge 2 2; DirectedGraph.AddEdge 2 3].

(** * Properties *)

Section Properties.
Context {K : Type} `{Countable K}.
Implicit Types (g : Graph K) (d : gmap K (gset K)) (u v x label : K).

Lemma has_edge_lookup d u v :
  has_edge d u v ↔ ∃ s, d !! u = Some s ∧ v ∈ s.
Proof.
  unfold has_edge. destruct (d !! u) as [s|]; simpl.
  - split; [eauto | by intros (? & [= <-] & ?)].
  - split; [set_solver | by intros (? & ? & ?)].
Qed.

Lemma contains_has_edge (view : EdgeView K) u v :
  contains view (u, v) = Ok (bool_decide (has_edge (_adj view) u v)).
Proof.
  pose proof (has_edge_lookup (_adj view) u v) as Hl.
  unfold contains, dict_getitem.
  destruct (_adj view !! u) as [s|] eqn:Hu; f_equal.
  - apply bool_decide_ext. rewrite Hl. split; [eauto | by intros (? & [= <-] & ?)].
  - symmetry. apply bool_decide_eq_false_2. rewrite Hl. by intros (? & ? & ?).
Qed.

(** C7. The containment test of an edge view always returns: [True] exactly
    when [u] is a key of the adjacency the view looks into and [v] is in
    the set stored there, and [False] when [u] is not a key.  The view of a
    directed graph looks into the forward adjacency, so the test is
    order-sensitive there. *)
Theorem edge_view_contains_total (g : Graph K) (dg : DirectedGraph.t K) u v :
  (∃ b, contains (edges g) (u, v) = Ok b ∧
        (b = true ↔ ∃ s, adj g !! u = Some s ∧ v ∈ s)) ∧
  (adj g !! u = None → contains (edges g) (u, v) = Ok false) ∧
  (∃ b, contains (DirectedGraph.edges dg) (u, v) = Ok b ∧
        (b = true ↔ ∃ s, adj (DirectedGraph.base dg) !! u = Some s ∧ v ∈ s)) ∧
  (adj (DirectedGraph.base dg) !! u = None →
     contains (DirectedGraph.edges dg) (u, v) = Ok false).
Proof.
  assert (Hview : ∀ view : EdgeView K,
    (∃ b, contains view (u, v) = Ok b ∧
          (b = true ↔ ∃ s, _adj view !! u = Some s ∧ v ∈ s)) ∧
    (_adj view !! u = None → contains view (u, v) = Ok false)).
  { intros view. split.
    - eexists. split; [apply contains_has_edge|].
      by rewrite bool_decide_eq_true, has_edge_lookup.
    - intros Hu. unfold contains, dict_getitem. by rewrite Hu. }
  destruct (Hview (edges g)) as [? ?].
  destruct (Hview (DirectedGraph.edges dg)) as [? ?].
  done.
Qed.

Lemma undirected_add_edge_self_loop g x :
  UndirectedGraph.add_edge x x g
  = Raised (ValueError "Undirected graphs have no self loops.") g.
Proof. unfold UndirectedGraph.add_edge. by rewrite decide_True. Qed.

(** C5. [add_edge(x, x)] on an undirected graph raises the [ValueError] that
    the specification calls InvalidEdgeError, and leaves the graph exactly as
    it was: the state carried by the exception is the state before the
    call, so [x] is not created and nodes, edges and edge count are the
    same. *)
Theorem undirected_self_loop_rejected g x :
  UndirectedGraph.add_edge x x g
    = Raised (ValueError "Undirected graphs have no self loops.") g ∧
  (let g' := state_after (UndirectedGraph.add_edge x x g) in
   g' = g ∧ nodes g' = nodes g ∧ edges g' = edges g ∧
   _number_of_edges g' = _number_of_edges g ∧
   (x ∈ nodes g' ↔ x ∈ nodes g)).
Proof.
  pose proof (undirected_add_edge_self_loop g x) as Hr.
  split; [done|]. by rewrite Hr.
Qed.

Lemma add_node_unknown g label :
  label ∉ nodes g →
  add_node label g = Done tt (mkGraph (<[label := ∅]> (adj g)) (_number_of_edges g)).
Proof.
  intros Hl. unfold add_node, mbind, M_bind, gets.
  by rewrite bool_decide_eq_false_2.
Qed.

Lemma add_node_known g label :
  label ∈ nodes g → add_node label g = Done tt g.
Proof.
  intros Hl. unfold add_node, mbind, M_bind, gets.
  by rewrite bool_decide_eq_true_2.
Qed.

Lemma add_node_node g label : label ∈ nodes (state_after (add_node label g)).
Proof.
  destruct (decide (label ∈ nodes g)) as [Hl|Hl].
  - by rewrite add_node_known.
  - rewrite add_node_unknown by done. unfold nodes. simpl.
    rewrite dom_insert_L. set_solver.
Qed.

(** C9. [add_node] is idempotent, on undirected and on directed graphs: a
    second call with the same label returns without changing anything, so
    two calls leave the same graph (nodes, edges and every other field) as
    one. *)
Theorem add_node_idempotent (g : Graph K) (dg : DirectedGraph.t K) x :
  (add_node x;; add_node x) g = add_node x g ∧
  add_node x (state_after (add_node x g)) = Done tt (state_after (add_node x g)) ∧
  (DirectedGraph.add_node x;; DirectedGraph.add_node x) dg
    = DirectedGraph.add_node x dg ∧
  DirectedGraph.add_node x (state_after (DirectedGraph.add_node x dg))
    = Done tt (state_after (DirectedGraph.add_node x dg)).
Proof.
  assert (Hb : ∀ g0 : Graph K,
    add_node x (state_after (add_node x g0)) = Done tt (state_after (add_node x g0))).
  { intros g0. apply add_node_known, add_node_node. }
  assert (Hd : ∀ g0 : Graph K, ∃ g1, add_node x g0 = Done tt g1).
  { intros g0. destruct (decide (x ∈ nodes g0)).
    - rewrite add_node_known by done. eauto.
    - rewrite add_node_unknown by done. eauto. }
  split_and!.
  - destruct (Hd g) as [g1 Hg1]. specialize (Hb g). rewrite Hg1 in Hb. simpl in Hb.
    unfold mbind, M_bind. by rewrite Hg1, Hb.
  - apply Hb.
  - unfold DirectedGraph.add_node, DirectedGraph.inherited, mbind, M_bind.
    destruct (Hd (DirectedGraph.base dg)) as [g1 Hg1].
    specialize (Hb (DirectedGraph.base dg)). rewrite Hg1 in Hb |- *. simpl in *.
    by rewrite Hb.
  - unfold DirectedGraph.add_node, DirectedGraph.inherited.
    destruct (Hd (DirectedGraph.base dg)) as [g1 Hg1].
    specialize (Hb (DirectedGraph.base dg)). rewrite Hg1 in Hb |- *. simpl in *.
    by rewrite Hb.
Qed.

(** ** Iteration of the undirected edge view *)

Lemma frozenset_eq (a b u v : K) :
  frozenset (a, b) = frozenset (u, v) ↔ (a = u ∧ b = v) ∨ (a = v ∧ b = u).
Proof.
  unfold frozenset. simpl. split.
  - intros Heq.
    assert (a ∈ ({[u; v]} : gset K)) by (rewrite <- Heq; set_solver).
    assert (b ∈ ({[u; v]} : gset K)) by (rewrite <- Heq; set_solver).
    assert (u ∈ ({[a; b]} : gset K)) by (rewrite Heq; set_solver).
    assert (v ∈ ({[a; b]} : gset K)) by (rewrite Heq; set_solver).
    set_solver.
  - intros [[-> ->]|[-> ->]]; set_solver.
Qed.

Lemma elem_of_directed_iter_from (items : list (K * list K)) a b :
  (a, b) ∈ directed_iter_from items ↔ ∃ l, (a, l) ∈ items ∧ b ∈ l.
Proof.
  unfold directed_iter_from. rewrite list_elem_of_bind. split.
  - intros ([u l] & Hin & Hitem). apply list_elem_of_bind in Hin as (w & Hw & Hl).
    apply list_elem_of_singleton in Hw as [= -> ->]. eauto.
  - intros (l & Hitem & Hl). exists (a, l). split; [|done].
    apply list_elem_of_bind. exists b. split; [|done]. by apply list_elem_of_singleton.
Qed.

(** The unordered pairs met when scanning [items]. *)
Local Abbreviation scanned items :=
  (list_to_set (frozenset <$> directed_iter_from items) : gset (gset K)).
(** How many of the yielded pairs connect the unordered pair [X]. *)
Local Abbreviation yields X out :=
  (length (filter (λ e : K * K, frozenset e = X) out)).

Lemma scanned_cons u l (items : list (K * list K)) :
  scanned ((u, l) :: items)
  = list_to_set ((λ v, frozenset (u, v)) <$> l) ∪ scanned items.
Proof.
  unfold directed_iter_from. simpl. rewrite fmap_app, list_to_set_app_L.
  do 2 f_equal. induction l as [|v l IH]; [done|]. csimpl. by rewrite IH.
Qed.

Lemma undirected_iter_inner_spec u l seen :
  let r := undirected_iter_inner u l seen in
  r.2 = seen ∪ list_to_set ((λ v, frozenset (u, v)) <$> l) ∧
  (∀ e, e ∈ r.1 → e.1 = u ∧ e.2 ∈ l) ∧
  (∀ X, yields X r.1 = if decide (X ∈ r.2 ∧ X ∉ seen) then 1%nat else 0%nat).
Proof.
  revert seen. induction l as [|v l IH]; intros seen; simpl.
  - split_and!; [set_solver | by intros ? ?%elem_of_nil |].
    intros X. case_decide; [naive_solver | done].
  - case_decide as Hseen.
    + specialize (IH ({[frozenset (u, v)]} ∪ seen)).
      destruct (undirected_iter_inner u l ({[frozenset (u, v)]} ∪ seen))
        as [out seen'] eqn:Hr.
      simpl in *. destruct IH as (Hs & Hout & Hcount). split_and!.
      * rewrite Hs. set_solver.
      * intros e [->|He]%elem_of_cons; [set_solver|].
        destruct (Hout e He). set_solver.
      * intros X. rewrite filter_cons. specialize (Hcount X).
        assert (frozenset (u, v) ∈ seen') by (rewrite Hs; set_solver).
        destruct (decide (frozenset (u, v) = X)) as [<-|Hne]; simpl; rewrite Hcount.
        -- rewrite decide_False by set_solver. by rewrite decide_True.
        -- subst seen'. repeat case_decide; try done; exfalso;
             rewrite ?elem_of_union, ?elem_of_singleton in *; naive_solver.
    + specialize (IH seen).
      destruct (undirected_iter_inner u l seen) as [out seen'] eqn:Hr.
      simpl in *. destruct IH as (Hs & Hout & Hcount). split_and!.
      * rewrite Hs. set_solver.
      * intros e He. destruct (Hout e He). set_solver.
      * done.
Qed.

Lemma undirected_iter_outer_spec (items : list (K * list K)) seen :
  let out := undirected_iter_outer items seen in
  (∀ e, e ∈ out → e ∈ directed_iter_from items) ∧
  (∀ X, yields X out
        = if decide (X ∈ scanned items ∧ X ∉ seen) then 1%nat else 0%nat).
Proof.
  revert seen. induction items as [|[u l] items IH]; intros seen.
  - simpl. split; [done|]. intros X. case_decide; set_solver.
  - cbn [undirected_iter_outer].
    pose proof (undirected_iter_inner_spec u l seen) as (Hs & Hin & Hc).
    destruct (undirected_iter_inner u l seen) as [out1 seen'].
    simpl in Hs, Hin, Hc. destruct (IH seen') as (Hout & Hcount). split.
    + intros [a b] [He|He]%elem_of_app.
      * apply elem_of_directed_iter_from. exists l.
        destruct (Hin _ He) as [? ?]. simpl in *. subst. split; [left | done].
      * apply Hout, elem_of_directed_iter_from in He as (l' & ? & ?).
        apply elem_of_directed_iter_from. exists l'. split; [by right | done].
    + intros X. rewrite filter_app, length_app, Hc, Hcount, scanned_cons, Hs.
      repeat case_decide; try done; exfalso;
        rewrite ?elem_of_union, ?elem_of_singleton in *; naive_solver.
Qed.

Lemma yields_once_NoDup (out : list (K * K)) :
  (∀ X, yields X out ≤ 1)%nat → NoDup out.
Proof.
  induction out as [|e out IH]; intros Hc; [constructor|].
  constructor.
  - intros He. specialize (Hc (frozenset e)).
    rewrite filter_cons, decide_True in Hc by done. simpl in Hc.
    assert (e ∈ filter (λ e' : K * K, frozenset e' = frozenset e) out) as Hf
      by (by apply list_elem_of_filter).
    destruct (filter _ out); [by apply elem_of_nil in Hf | simpl in Hc; lia].
  - apply IH. intros X. specialize (Hc X). rewrite filter_cons in Hc.
    case_decide; simpl in Hc; lia.
Qed.

Lemma symmetric_has_edge d :
  symmetric d ↔ ∀ u v, has_edge d u v → has_edge d v u.
Proof.
  unfold symmetric. rewrite map_Forall_lookup. split.
  - intros Hs u v (s & Hu & Hv)%has_edge_lookup. by apply (Hs u s).
  - intros Hs u s Hu v Hv. apply Hs, has_edge_lookup. eauto.
Qed.

Lemma loop_free_has_edge d : loop_free d ↔ ∀ u, ¬ has_edge d u u.
Proof.
  unfold loop_free. rewrite map_Forall_lookup. split.
  - intros Hs u (s & Hu & Hv)%has_edge_lookup. by apply (Hs u s).
  - intros Hs u s Hu Hv. apply (Hs u), has_edge_lookup. eauto.
Qed.

Lemma enumerates_has_edge d items a b :
  enumerates d items → (∃ l, (a, l) ∈ items ∧ b ∈ l) ↔ has_edge d a b.
Proof.
  intros (_ & Hall & Hdom). rewrite Forall_forall in Hall.
  rewrite has_edge_lookup. split.
  - intros (l & Hl & Hb). destruct (Hall _ Hl) as [_ Hd]. simpl in Hd.
    eexists. split; [done | set_solver].
  - intros (s & Ha & Hb).
    assert (a ∈ dom d) as Hk by (apply elem_of_dom; eauto).
    apply Hdom, elem_of_list_to_set, list_elem_of_fmap in Hk as ([a' l] & -> & Hl).
    destruct (Hall _ Hl) as [_ Hd]. simpl in *.
    exists l. split; [done|]. rewrite Ha in Hd. injection Hd as ->. set_solver.
Qed.

Lemma dict_items_enumerates d : enumerates d (dict_items d).
Proof.
  unfold enumerates, dict_items. rewrite <- list_fmap_compose. split_and!.
  - apply NoDup_fst_map_to_list.
  - apply Forall_fmap, Forall_forall. intros [u s] Hus. simpl.
    apply elem_of_map_to_list in Hus. split; [apply NoDup_elements|].
    by rewrite list_to_set_elements_L.
  - intros u [s Hu]%elem_of_dom. apply elem_of_list_to_set, list_elem_of_fmap.
    exists (u, s). split; [done | by apply elem_of_map_to_list].
Qed.

Lemma elem_of_edge_pairs d a b : (a, b) ∈ edge_pairs d ↔ has_edge d a b.
Proof.
  unfold edge_pairs. rewrite elem_of_directed_iter_from.
  apply enumerates_has_edge, dict_items_enumerates.
Qed.

(** C6. Iterating the edge view of an undirected graph whose adjacency is
    symmetric, in whatever order the dictionary and its sets are
    enumerated, yields only pairs [(a, b)] with [b] in [adjacency[a]], and
    for every [u], [v] with [v] in [adjacency[u]] exactly one of the yielded
    pairs is [(u, v)] or [(v, u)]: one of them is yielded, once, and never
    both. *)
Theorem undirected_iter_each_edge_once g (items : list (K * list K)) :
  symmetric (adj g) → enumerates (_adj (edges g)) items →
  let out := undirected_iter_from items in
  (∀ a b, (a, b) ∈ out → has_edge (adj g) a b) ∧
  NoDup out ∧
  (∀ u v, has_edge (adj g) u v →
     length (filter (λ e, e = (u, v) ∨ e = (v, u)) out) = 1%nat ∧
     ((u, v) ∈ out ∨ (v, u) ∈ out) ∧
     (u ≠ v → ¬ ((u, v) ∈ out ∧ (v, u) ∈ out))).
Proof.
  intros _ Henum out. cbn [edges _adj] in Henum.
  generalize dependent (adj g). intros d Henum.
  destruct (undirected_iter_outer_spec items ∅) as (Hmem & Hcount).
  fold (undirected_iter_from items) in Hmem, Hcount. fold out in Hmem, Hcount.
  assert (Hone : ∀ u v, has_edge d u v →
    length (filter (λ e, e = (u, v) ∨ e = (v, u)) out) = 1%nat).
  { intros u v Huv.
    rewrite (list_filter_iff _ (λ e : K * K, frozenset e = frozenset (u, v))).
    - rewrite Hcount, decide_True; [done|]. split; [|set_solver].
      apply elem_of_list_to_set, list_elem_of_fmap_2.
      by apply elem_of_directed_iter_from, (enumerates_has_edge d).
    - intros [a b]. rewrite frozenset_eq. naive_solver. }
  split_and!.
  - intros a b Hab. by apply (enumerates_has_edge d items), elem_of_directed_iter_from, Hmem.
  - apply yields_once_NoDup. intros X. rewrite Hcount. case_decide; lia.
  - intros u v Huv. specialize (Hone u v Huv). split_and!; [done | |].
    + destruct (filter _ out) as [|e r] eqn:Hf; [done|].
      assert (e ∈ filter (λ e, e = (u, v) ∨ e = (v, u)) out) as He
        by (rewrite Hf; left).
      apply list_elem_of_filter in He as [[->| ->] ?]; eauto.
    + intros Hne [Huv' Hvu'].
      apply list_elem_of_lookup in Huv' as [i Hi], Hvu' as [j Hj].
      assert ((u, v) ∈ filter (λ e, e = (u, v) ∨ e = (v, u)) out) as H1
        by (apply list_elem_of_filter; split; [by left | by eapply list_elem_of_lookup_2]).
      assert ((v, u) ∈ filter (λ e, e = (u, v) ∨ e = (v, u)) out) as H2
        by (apply list_elem_of_filter; split; [by right | by eapply list_elem_of_lookup_2]).
      destruct (filter _ out) as [|e [|e' r]]; simpl in Hone; try lia.
      apply list_elem_of_singleton in H1, H2. congruence.
Qed.

(** ** Dictionaries of sets, seen through [has_edge] *)

Lemma dict_ext d1 d2 :
  dom d1 = dom d2 → (∀ a b, has_edge d1 a b ↔ has_edge d2 a b) → d1 = d2.
Proof.
  intros Hdom He. apply map_eq. intros a.
  assert (a ∈ dom d1 ↔ a ∈ dom d2) as Ha by (by rewrite Hdom).
  rewrite !elem_of_dom in Ha.
  destruct (d1 !! a) as [s1|] eqn:H1, (d2 !! a) as [s2|] eqn:H2.
  - f_equal. apply set_eq. intros b. specialize (He a b).
    unfold has_edge in He. by rewrite H1, H2 in He.
  - destruct Ha as [[? ?] _]; [eauto | done].
  - destruct Ha as [_ [? ?]]; [eauto | done].
  - done.
Qed.

Lemma has_edge_insert d k s a b :
  has_edge (<[k := s]> d) a b ↔ if decide (a = k) then b ∈ s else has_edge d a b.
Proof.
  unfold has_edge. rewrite lookup_insert.
  destruct (decide (k = a)) as [->|]; [by rewrite decide_True|by rewrite decide_False].
Qed.

Lemma has_edge_delete d k a b :
  has_edge (delete k d) a b ↔ a ≠ k ∧ has_edge d a b.
Proof.
  unfold has_edge. rewrite lookup_delete.
  destruct (decide (k = a)) as [->|]; simpl; [set_solver | naive_solver].
Qed.

Lemma has_edge_Some d u s b : d !! u = Some s → has_edge d u b ↔ b ∈ s.
Proof. intros Hu. unfold has_edge. by rewrite Hu. Qed.

Lemma has_edge_dom d a b : has_edge d a b → a ∈ dom d.
Proof. intros (s & ? & _)%has_edge_lookup. apply elem_of_dom. eauto. Qed.

Lemma elem_of_unordered_pairs d X :
  X ∈ unordered_pairs d ↔ ∃ a b, has_edge d a b ∧ X = frozenset (a, b).
Proof.
  unfold unordered_pairs. rewrite elem_of_list_to_set, list_elem_of_fmap. split.
  - intros ([a b] & -> & Hab%elem_of_edge_pairs). eauto.
  - intros (a & b & Hab & ->). exists (a, b). by rewrite elem_of_edge_pairs.
Qed.

Lemma unordered_pairs_ext d1 d2 :
  (∀ a b, has_edge d1 a b ↔ has_edge d2 a b) →
  unordered_pairs d1 = unordered_pairs d2.
Proof.
  intros He. apply set_eq. intros X. rewrite !elem_of_unordered_pairs.
  split; intros (a & b & Hab & ->); exists a, b; by rewrite He in *.
Qed.

Lemma frozenset_comm (a b : K) : frozenset (a, b) = frozenset (b, a).
Proof. apply frozenset_eq. by right. Qed.

(** A new edge between two nodes adds one unordered pair. *)
Lemma unordered_pairs_new_edge d d' u v :
  symmetric d → ¬ has_edge d u v →
  (∀ a b, has_edge d' a b ↔ has_edge d a b ∨ (a = u ∧ b = v) ∨ (a = v ∧ b = u)) →
  size (unordered_pairs d') = S (size (unordered_pairs d)).
Proof.
  rewrite symmetric_has_edge. intros Hsym Hnew He.
  assert (unordered_pairs d' = {[ frozenset (u, v) ]} ∪ unordered_pairs d) as ->.
  { apply set_eq. intros X.
    rewrite elem_of_union, elem_of_singleton, !elem_of_unordered_pairs. split.
    - intros (a & b & [Hab|[[-> ->]|[-> ->]]]%He & ->); eauto using frozenset_comm.
    - intros [->|(a & b & Hab & ->)].
      + exists u, v. rewrite He. eauto.
      + exists a, b. rewrite He. eauto. }
  rewrite size_union, size_singleton; [done|].
  intros X ->%elem_of_singleton (a & b & Hab & Heq)%elem_of_unordered_pairs.
  symmetry in Heq. apply frozenset_eq in Heq as [[-> ->]|[-> ->]]; eauto.
Qed.

(** Removing a node removes one unordered pair per neighbour. *)
Lemma unordered_pairs_remove_node d d' label :
  symmetric d →
  (∀ a b, has_edge d' a b ↔ has_edge d a b ∧ a ≠ label ∧ b ≠ label) →
  size (unordered_pairs d)
  = (size (unordered_pairs d') + size (default ∅ (d !! label)))%nat.
Proof.
  rewrite symmetric_has_edge. intros Hsym He.
  set (star := list_to_set ((λ n, frozenset (label, n))
                 <$> elements (default ∅ (d !! label))) : gset (gset K)).
  assert (unordered_pairs d = unordered_pairs d' ∪ star) as ->.
  { apply set_eq. intros X. unfold star.
    rewrite elem_of_union, elem_of_list_to_set, list_elem_of_fmap,
      !elem_of_unordered_pairs. split.
    - intros (a & b & Hab & ->).
      destruct (decide (a = label)) as [->|Ha].
      { right. exists b. split; [done|]. by apply elem_of_elements. }
      destruct (decide (b = label)) as [->|Hb].
      { right. exists a. split; [apply frozenset_comm|]. by apply elem_of_elements, Hsym. }
      left. exists a, b. by rewrite He.
    - intros [(a & b & Hab%He & ->)|(n & -> & Hn%elem_of_elements)].
      + exists a, b. tauto.
      + exists label, n. done. }
  rewrite size_union.
  - f_equal. unfold star. rewrite size_list_to_set; [by rewrite length_fmap|].
    apply NoDup_fmap_2_strong; [|apply NoDup_elements].
    intros n n' _ _ [[_ ?]|[-> ->]]%frozenset_eq; done.
  - intros X (a & b & Hab%He & ->)%elem_of_unordered_pairs.
    unfold star. rewrite elem_of_list_to_set, list_elem_of_fmap.
    intros (n & [[-> ->]|[-> ->]]%frozenset_eq & _); tauto.
Qed.

(** ** What the methods of [UndirectedGraph] do *)

Lemma bind_Done {S A B} (m : M S A) (k : A → M S B) s a s' :
  m s = Done a s' → (m ≫= k) s = k a s'.
Proof. intros Hm. unfold mbind, M_bind. by rewrite Hm. Qed.

Lemma bind_Raised {S A B} (m : M S A) (k : A → M S B) s e s' :
  m s = Raised e s' → (m ≫= k) s = Raised e s'.
Proof. intros Hm. unfold mbind, M_bind. by rewrite Hm. Qed.

Lemma adj_getitem_Some g k s : adj g !! k = Some s → adj_getitem k g = Done s g.
Proof. intros Hk. unfold adj_getitem, lift_except, dict_getitem. by rewrite Hk. Qed.

Lemma adj_getitem_None g k : adj g !! k = None → adj_getitem k g = Raised KeyError g.
Proof. intros Hk. unfold adj_getitem, lift_except, dict_getitem. by rewrite Hk. Qed.

Lemma adj_add_Some g k s x :
  adj g !! k = Some s →
  adj_add k x g = Done tt (mkGraph (<[k := s ∪ {[x]}]> (adj g)) (_number_of_edges g)).
Proof. intros Hk. unfold adj_add. by rewrite (bind_Done _ _ _ _ _ (adj_getitem_Some g k s Hk)). Qed.

Lemma adj_discard_Some g k s x :
  adj g !! k = Some s →
  adj_discard k x g = Done tt (mkGraph (<[k := s ∖ {[x]}]> (adj g)) (_number_of_edges g)).
Proof. intros Hk. unfold adj_discard. by rewrite (bind_Done _ _ _ _ _ (adj_getitem_Some g k s Hk)). Qed.

(** The loop [for x in {u, v}: if x not in self.adj: self.adj[x] = set()]
    creates the missing nodes and changes no edge. *)
Lemma create_missing_spec (l : list K) g :
  ∃ d', for_each l add_node g = Done tt (mkGraph d' (_number_of_edges g)) ∧
        dom d' = dom (adj g) ∪ list_to_set l ∧
        ∀ a b, has_edge d' a b ↔ has_edge (adj g) a b.
Proof.
  revert g. induction l as [|x l IH]; intros g.
  - exists (adj g). destruct g. split_and!; [done | set_solver | done].
  - destruct (decide (x ∈ nodes g)) as [Hx|Hx].
    + destruct (IH g) as (d' & Hrun & Hdom & He). exists d'. split_and!.
      * cbn [for_each]. by rewrite (bind_Done _ _ _ _ _ (add_node_known g x Hx)).
      * rewrite Hdom. unfold nodes in Hx. set_solver.
      * done.
    + destruct (IH (mkGraph (<[x := ∅]> (adj g)) (_number_of_edges g)))
        as (d' & Hrun & Hdom & He).
      exists d'. split_and!.
      * cbn [for_each]. by rewrite (bind_Done _ _ _ _ _ (add_node_unknown g x Hx)).
      * rewrite Hdom. simpl. rewrite dom_insert_L. set_solver.
      * intros a b. rewrite He. simpl. rewrite has_edge_insert.
        case_decide as Ha; [subst a|done].
        split; [set_solver|]. intros Hab%has_edge_dom. done.
Qed.

Lemma undirected_add_edge_spec g u v :
  u ≠ v →
  ∃ d', UndirectedGraph.add_edge u v g
        = Done tt (mkGraph d' (if decide (has_edge (adj g) u v)
                                then _number_of_edges g
                                else _number_of_edges g + 1)) ∧
        dom d' = dom (adj g) ∪ {[u; v]} ∧
        ∀ a b, has_edge d' a b ↔
               has_edge (adj g) a b ∨
               (¬ has_edge (adj g) u v ∧ ((a = u ∧ b = v) ∨ (a = v ∧ b = u))).
Proof.
  intros Hne.
  destruct (create_missing_spec (elements ({[u; v]} : gset K)) g)
    as (d0 & Hloop & Hdom & He).
  rewrite list_to_set_elements_L in Hdom.
  unfold UndirectedGraph.add_edge. rewrite decide_False by done.
  rewrite (bind_Done _ _ _ _ _ Hloop).
  unfold lift_except at 1. unfold mbind, M_bind at 1.
  rewrite contains_has_edge. simpl.
  rewrite (bool_decide_ext _ _ (He u v)).
  destruct (decide (has_edge (adj g) u v)) as [Huv|Huv].
  - rewrite bool_decide_eq_true_2 by done. simpl. exists d0.
    split_and!; [done | done | intros a b; rewrite He; tauto].
  - rewrite bool_decide_eq_false_2 by done. simpl.
    assert (is_Some (d0 !! u)) as [su Hu] by (apply elem_of_dom; set_solver).
    assert (is_Some (d0 !! v)) as [sv Hv] by (apply elem_of_dom; set_solver).
    exists (<[v := sv ∪ {[u]}]> (<[u := su ∪ {[v]}]> d0)). split_and!.
    + unfold mbind, M_bind.
      rewrite (adj_add_Some (mkGraph d0 _) u su v Hu). cbn.
      rewrite (adj_add_Some _ v sv u) by (cbn; by rewrite lookup_insert_ne).
      done.
    + rewrite !dom_insert_L, Hdom. set_solver.
    + intros a b. rewrite has_edge_insert.
      destruct (decide (a = v)) as [->|Hav].
      { rewrite elem_of_union, elem_of_singleton, <- (has_edge_Some d0 v sv b Hv), He.
        clear -Hne Huv. naive_solver. }
      rewrite has_edge_insert. destruct (decide (a = u)) as [->|Hau].
      { rewrite elem_of_union, elem_of_singleton, <- (has_edge_Some d0 u su b Hu), He.
        clear -Hne Huv. naive_solver. }
      rewrite He. clear -Hav Hau. naive_solver.
Qed.

(** The loop of [remove_node], run over neighbours that are nodes other
    than [label], discards [label] from each and counts one edge down per
    neighbour. *)
Lemma discard_loop_spec label (l : list K) g :
  (∀ x, x ∈ l → x ≠ label ∧ x ∈ dom (adj g)) →
  ∃ d', for_each l (λ neighbor,
          adj_discard neighbor label;;
          modify (add_to_count (-1));;
          if decide (neighbor = label)
          then raise (RuntimeError "Set changed size during iteration")
          else mret tt) g
        = Done tt (mkGraph d' (_number_of_edges g - Z.of_nat (length l))) ∧
        dom d' = dom (adj g) ∧
        ∀ a b, has_edge d' a b ↔ has_edge (adj g) a b ∧ ¬ (a ∈ l ∧ b = label).
Proof.
  revert g. induction l as [|x l IH]; intros g Hl.
  - exists (adj g). destruct g. simpl. rewrite Z.sub_0_r.
    split_and!; [done | done | set_solver].
  - destruct (Hl x) as [Hx Hdom]; [left|].
    apply elem_of_dom in Hdom as [s Hs].
    destruct (IH (mkGraph (<[x := s ∖ {[label]}]> (adj g)) (_number_of_edges g + -1)))
      as (d' & Hrun & Hdom' & He).
    { intros y Hy. destruct (Hl y) as [? ?]; [by right|].
      split; [done|]. simpl. rewrite dom_insert_L. set_solver. }
    exists d'. split_and!.
    + cbn [for_each]. erewrite bind_Done.
      * rewrite Hrun. simpl. do 2 f_equal. lia.
      * unfold mbind, M_bind. rewrite (adj_discard_Some g x s label Hs).
        unfold modify, add_to_count. cbn. by rewrite decide_False.
    + rewrite Hdom'. simpl. rewrite dom_insert_L.
      assert (x ∈ dom (adj g)) by (apply elem_of_dom; eauto). set_solver.
    + intros a b. rewrite He. simpl. rewrite has_edge_insert.
      pose proof (has_edge_Some (adj g) x s b Hs).
      case_decide; subst; set_solver.
Qed.

Lemma undirected_remove_node_spec g label :
  symmetric (adj g) → loop_free (adj g) →
  ∃ d', UndirectedGraph.remove_node label g
        = Done tt (mkGraph d' (_number_of_edges g
                     - Z.of_nat (size (default ∅ (adj g !! label))))) ∧
        dom d' = dom (adj g) ∖ {[label]} ∧
        ∀ a b, has_edge d' a b ↔ has_edge (adj g) a b ∧ a ≠ label ∧ b ≠ label.
Proof.
  rewrite symmetric_has_edge, loop_free_has_edge. intros Hsym Hloop.
  unfold UndirectedGraph.remove_node, gets. unfold mbind at 1, M_bind at 1.
  destruct (adj g !! label) as [s|] eqn:Hlabel.
  - rewrite bool_decide_eq_true_2 by (apply elem_of_dom; eauto). simpl.
    rewrite (bind_Done _ _ _ _ _ (adj_getitem_Some g label s Hlabel)).
    destruct (discard_loop_spec label (elements s) g) as (d1 & Hrun & Hdom & He).
    { intros x Hx%elem_of_elements.
      assert (has_edge (adj g) label x) as Hlx by (by apply (has_edge_Some _ _ s)).
      split; [intros ->; by apply (Hloop label) | by apply Hsym, has_edge_dom in Hlx]. }
    rewrite (bind_Done _ _ _ _ _ Hrun).
    assert (is_Some (d1 !! label)) as [s1 Hs1]
      by (apply elem_of_dom; rewrite Hdom; apply elem_of_dom; eauto).
    exists (delete label d1). split_and!.
    + unfold adj_delitem.
      by rewrite (bind_Done _ _ _ _ _ (adj_getitem_Some (mkGraph d1 _) label s1 Hs1)).
    + by rewrite dom_delete_L, Hdom.
    + intros a b. rewrite has_edge_delete, He. split; [|tauto].
      intros (Ha & Hab & Hn). split_and!; [done | done |].
      intros ->. apply Hn. split; [|done].
      by apply elem_of_elements, (has_edge_Some _ _ _ _ Hlabel), Hsym.
  - rewrite bool_decide_eq_false_2 by (by apply not_elem_of_dom). cbn [negb default].
    exists (adj g). destruct g as [d n]. cbn [adj _number_of_edges] in *.
    rewrite size_empty, Z.sub_0_r.
    split_and!; [done | |].
    + apply not_elem_of_dom in Hlabel. set_solver.
    + intros a b. split; [|tauto]. intros Hab. split_and!; [done | |].
      * intros ->. apply has_edge_dom, elem_of_dom in Hab as [? ?]. congruence.
      * intros ->. apply Hsym, has_edge_dom, elem_of_dom in Hab as [? ?]. congruence.
Qed.

(** ** The invariant of undirected graphs *)

Lemma has_edge_empty (a b : K) : ¬ has_edge (∅ : gmap K (gset K)) a b.
Proof. unfold has_edge. rewrite lookup_empty. simpl. set_solver. Qed.

Lemma invariant_init : UndirectedGraph.invariant (UndirectedGraph.init (K := K)).
Proof.
  unfold UndirectedGraph.invariant, UndirectedGraph.init, Graph_init. simpl.
  split_and!.
  - apply symmetric_has_edge. intros u v Huv. by apply has_edge_empty in Huv.
  - apply loop_free_has_edge. intros u. apply has_edge_empty.
  - assert (unordered_pairs (∅ : gmap K (gset K)) = ∅) as ->; [|by rewrite size_empty].
    apply set_eq. intros X. rewrite elem_of_unordered_pairs. split.
    + intros (a & b & Hab & _). by apply has_edge_empty in Hab.
    + intros HX. by apply not_elem_of_empty in HX.
Qed.

Lemma invariant_same_edges g g' :
  UndirectedGraph.invariant g →
  (∀ a b, has_edge (adj g') a b ↔ has_edge (adj g) a b) →
  _number_of_edges g' = _number_of_edges g →
  UndirectedGraph.invariant g'.
Proof.
  unfold UndirectedGraph.invariant.
  rewrite !symmetric_has_edge, !loop_free_has_edge.
  intros (Hsym & Hloop & Hcount) He Hn. split_and!.
  - intros u v. rewrite !He. apply Hsym.
  - intros u. rewrite He. apply Hloop.
  - by rewrite Hn, Hcount, (unordered_pairs_ext _ _ He).
Qed.

Lemma invariant_add_node g label :
  UndirectedGraph.invariant g →
  UndirectedGraph.invariant (state_after (add_node label g)).
Proof.
  intros Hinv. destruct (decide (label ∈ nodes g)) as [Hl|Hl].
  - by rewrite add_node_known.
  - rewrite add_node_unknown by done. simpl.
    apply (invariant_same_edges g); [done | | done].
    intros a b. simpl. rewrite has_edge_insert. case_decide as Ha; [subst a|done].
    split; [set_solver|]. intros Hab%has_edge_dom. done.
Qed.

Lemma invariant_add_edge g u v :
  UndirectedGraph.invariant g →
  UndirectedGraph.invariant (state_after (UndirectedGraph.add_edge u v g)).
Proof.
  intros Hinv. destruct (decide (u = v)) as [->|Hne].
  { by rewrite undirected_add_edge_self_loop. }
  destruct (undirected_add_edge_spec g u v Hne) as (d' & -> & _ & He). simpl.
  destruct (decide (has_edge (adj g) u v)) as [Huv|Huv].
  - apply (invariant_same_edges g); [done | | done].
    intros a b. simpl. rewrite He. tauto.
  - assert (∀ a b, has_edge d' a b ↔
                   has_edge (adj g) a b ∨ (a = u ∧ b = v) ∨ (a = v ∧ b = u)) as He'
      by (intros a b; rewrite He; tauto).
    destruct Hinv as (Hsym & Hloop & Hcount).
    pose proof (unordered_pairs_new_edge (adj g) d' u v Hsym Huv He') as Hsize.
    unfold UndirectedGraph.invariant. simpl.
    rewrite symmetric_has_edge, loop_free_has_edge in *. split_and!.
    + intros a b. rewrite !He'. clear -Hsym. naive_solver.
    + intros a. rewrite He'. clear -Hloop Hne. naive_solver.
    + rewrite Hsize, Hcount. lia.
Qed.

Lemma invariant_remove_node g label :
  UndirectedGraph.invariant g →
  UndirectedGraph.invariant (state_after (UndirectedGraph.remove_node label g)).
Proof.
  intros (Hsym & Hloop & Hcount).
  destruct (undirected_remove_node_spec g label Hsym Hloop) as (d' & -> & _ & He).
  pose proof (unordered_pairs_remove_node (adj g) d' label Hsym He) as Hsize.
  unfold UndirectedGraph.invariant. simpl.
  rewrite symmetric_has_edge, loop_free_has_edge in *. split_and!.
  - intros a b. rewrite !He. clear -Hsym. naive_solver.
  - intros a. rewrite He. clear -Hloop. naive_solver.
  - rewrite Hcount, Hsize. lia.
Qed.

Lemma invariant_perform (c : UndirectedGraph.call K) g :
  UndirectedGraph.invariant g →
  UndirectedGraph.invariant (state_after (UndirectedGraph.perform c g)).
Proof.
  destruct c; simpl;
    auto using invariant_add_node, invariant_add_edge, invariant_remove_node.
Qed.

Lemma invariant_run (calls : list (UndirectedGraph.call K)) :
  UndirectedGraph.invariant (UndirectedGraph.run calls).
Proof.
  unfold UndirectedGraph.run.
  induction calls as [|c calls IH] using rev_ind; [apply invariant_init|].
  rewrite foldl_snoc. by apply invariant_perform.
Qed.

(** On every reachable undirected graph [remove_node] returns; the node and
    the edges at it are gone and nothing else has changed. *)
Lemma undirected_remove_node_returns (calls : list (UndirectedGraph.call K)) label :
  let g := UndirectedGraph.run calls in
  ∃ g', UndirectedGraph.remove_node label g = Done tt g' ∧
        nodes g' = nodes g ∖ {[label]} ∧
        (∀ a b, has_edge (adj g') a b ↔ has_edge (adj g) a b ∧ a ≠ label ∧ b ≠ label) ∧
        (label ∉ nodes g → g' = g).
Proof.
  intros g. destruct (invariant_run calls) as (Hsym & Hloop & _). fold g in Hsym, Hloop.
  destruct (undirected_remove_node_spec g label Hsym Hloop) as (d' & Hrun & Hdom & He).
  eexists. split_and!; [exact Hrun | done | done |].
  intros Hl. unfold nodes in Hl. pose proof Hl as Hnone.
  apply not_elem_of_dom in Hnone. clearbody g.
  destruct g as [d n]. cbn [adj _number_of_edges] in *. f_equal.
  - apply dict_ext.
    + rewrite Hdom. set_solver.
    + intros a b. rewrite He. split; [tauto|]. intros Hab. split_and!; [done | |].
      * intros ->. apply has_edge_dom, elem_of_dom in Hab as [? ?]. congruence.
      * intros ->. rewrite symmetric_has_edge in Hsym.
        apply Hsym, has_edge_dom, elem_of_dom in Hab as [? ?]. congruence.
  - rewrite Hnone. cbn [default]. rewrite size_empty. lia.
Qed.

(** C8. After any sequence of [add_node], [add_edge] and [remove_node] calls
    on a new undirected graph the adjacency is symmetric; in particular,
    for known labels [u] and [v], [v] is in [neighbors(u)] exactly when [u]
    is in [neighbors(v)]. *)
Theorem undirected_adjacency_symmetric (calls : list (UndirectedGraph.call K)) u v :
  let g := UndirectedGraph.run calls in
  symmetric (adj g) ∧
  (has_edge (adj g) u v ↔ has_edge (adj g) v u) ∧
  (∀ su sv,
     UndirectedGraph.neighbors u g = Done su g →
     UndirectedGraph.neighbors v g = Done sv g →
     (v ∈ su ↔ u ∈ sv)).
Proof.
  intros g. destruct (invariant_run calls) as (Hsym & _ & _). fold g in Hsym.
  split; [done|]. rewrite symmetric_has_edge in Hsym.
  assert (has_edge (adj g) u v ↔ has_edge (adj g) v u) as Huv by (split; apply Hsym).
  split; [done|]. intros su sv Hu Hv.
  unfold UndirectedGraph.neighbors, adj_getitem, lift_except, dict_getitem in Hu, Hv.
  destruct (adj g !! u) as [su'|] eqn:Hsu; [|done].
  destruct (adj g !! v) as [sv'|] eqn:Hsv; [|done].
  injection Hu as ->. injection Hv as ->.
  by rewrite <- (has_edge_Some _ _ _ v Hsu), <- (has_edge_Some _ _ _ u Hsv).
Qed.

(** C4. After any sequence of [add_edge] and [remove_node] calls (and of
    [add_node] calls as well) on a new undirected graph, the length of the
    edge view is the number of distinct unordered pairs [{u, v}] with [v] in
    [adjacency[u]]. *)
Theorem undirected_edge_count_correct (calls : list (UndirectedGraph.call K)) :
  let g := UndirectedGraph.run calls in
  len (edges g) = Z.of_nat (size (unordered_pairs (adj g))).
Proof. intros g. by destruct (invariant_run calls) as (_ & _ & Hcount). Qed.

(** C10, amended. On an undirected graph whose adjacency is symmetric,
    [add_edge(u, v)] and [add_edge(v, u)] with [u] and [v] distinct return
    with the same adjacency and the same edge count. *)
Theorem undirected_add_edge_commutes g u v :
  symmetric (adj g) → u ≠ v →
  UndirectedGraph.add_edge u v g = UndirectedGraph.add_edge v u g.
Proof.
  rewrite symmetric_has_edge. intros Hsym Hne.
  destruct (undirected_add_edge_spec g u v Hne) as (d1 & -> & Hdom1 & He1).
  destruct (undirected_add_edge_spec g v u) as (d2 & -> & Hdom2 & He2); [done|].
  assert (has_edge (adj g) u v ↔ has_edge (adj g) v u) as Huv by (split; apply Hsym).
  do 2 f_equal.
  - apply dict_ext.
    + rewrite Hdom1, Hdom2. set_solver.
    + intros a b. rewrite He1, He2. clear -Huv. naive_solver.
  - repeat case_decide; tauto || done.
Qed.

(** ** [DirectedGraph.add_edge] keeps the two maps in step *)

Lemma has_edge_insert_empty d x a b :
  x ∉ dom d → has_edge (<[x := ∅]> d) a b ↔ has_edge d a b.
Proof.
  intros Hx. rewrite has_edge_insert. case_decide as Ha; [subst a|done].
  split; [set_solver|]. intros Hab%has_edge_dom. done.
Qed.

Lemma directed_create_missing_spec (l : list K) (dg : DirectedGraph.t K) :
  ∃ d' b',
    for_each l (λ x,
      known ← gets (λ self, bool_decide (x ∈ dom (adj (DirectedGraph.base self))));
      (if negb known then DirectedGraph.inherited (adj_setitem x ∅) else mret tt);;
      known_back ← gets (λ self, bool_decide (x ∈ dom (DirectedGraph.back_adj self)));
      if negb known_back then DirectedGraph.back_setitem x ∅ else mret tt) dg
    = Done tt (DirectedGraph.mk (mkGraph d' (DirectedGraph.edge_count dg)) b') ∧
    dom d' = dom (adj (DirectedGraph.base dg)) ∪ list_to_set l ∧
    dom b' = dom (DirectedGraph.back_adj dg) ∪ list_to_set l ∧
    (∀ a b, has_edge d' a b ↔ has_edge (adj (DirectedGraph.base dg)) a b) ∧
    (∀ a b, has_edge b' a b ↔ has_edge (DirectedGraph.back_adj dg) a b).
Proof.
  revert dg. induction l as [|x l IH]; intros [[d n] bk].
  - exists d, bk. split_and!; [done | set_solver | set_solver | done | done].
  - set (d1 := if decide (x ∈ dom d) then d else <[x := ∅]> d).
    set (b1 := if decide (x ∈ dom bk) then bk else <[x := ∅]> bk).
    destruct (IH (DirectedGraph.mk (mkGraph d1 n) b1))
      as (d' & b' & Hrun & Hd & Hb & Hed & Heb).
    unfold DirectedGraph.edge_count in *.
    cbn [DirectedGraph.base DirectedGraph.back_adj adj _number_of_edges] in *.
    exists d', b'. split_and!.
    + cbn [for_each]. rewrite <- Hrun. clear.
      unfold mbind, M_bind, gets, DirectedGraph.inherited, DirectedGraph.back_setitem,
        adj_setitem, modify, set_adj, mret, M_ret, d1, b1.
      cbn [DirectedGraph.base DirectedGraph.back_adj adj _number_of_edges].
      destruct (decide (x ∈ dom d)), (decide (x ∈ dom bk));
        rewrite ?bool_decide_eq_true_2, ?bool_decide_eq_false_2 by done;
        cbn [negb DirectedGraph.base DirectedGraph.back_adj adj _number_of_edges];
        rewrite ?bool_decide_eq_true_2, ?bool_decide_eq_false_2 by done; done.
    + rewrite Hd. unfold d1. case_decide; [|rewrite dom_insert_L]; set_solver.
    + rewrite Hb. unfold b1. case_decide; [|rewrite dom_insert_L]; set_solver.
    + intros a b. rewrite Hed. unfold d1. case_decide; [done|].
      by apply has_edge_insert_empty.
    + intros a b. rewrite Heb. unfold b1. case_decide; [done|].
      by apply has_edge_insert_empty.
Qed.

(** From a state in which the two maps agree, [add_edge] returns, in a
    state in which they agree again: unlike the inherited [add_node] and
    unlike [remove_node], it updates [adj] and [back_adj] together. *)
Lemma directed_add_edge_consistent (dg : DirectedGraph.t K) u v :
  DirectedGraph.consistent dg →
  ∃ dg', DirectedGraph.add_edge u v dg = Done tt dg' ∧
         DirectedGraph.consistent dg' ∧
         has_edge (adj (DirectedGraph.base dg')) u v ∧
         DirectedGraph.edge_count dg' = DirectedGraph.edge_count dg + 1.
Proof.
  intros [Hcons Hdom].
  destruct (directed_create_missing_spec (elements ({[u; v]} : gset K)) dg)
    as (d0 & b0 & Hloop & Hd & Hb & Hed & Heb).
  rewrite list_to_set_elements_L in Hd, Hb.
  assert (is_Some (d0 !! u)) as [su Hu] by (apply elem_of_dom; set_solver).
  assert (is_Some (b0 !! v)) as [bv Hv] by (apply elem_of_dom; set_solver).
  exists (DirectedGraph.mk
            (mkGraph (<[u := su ∪ {[v]}]> d0) (DirectedGraph.edge_count dg + 1))
            (<[v := bv ∪ {[u]}]> b0)).
  split_and!.
  - unfold DirectedGraph.add_edge. rewrite (bind_Done _ _ _ _ _ Hloop).
    unfold DirectedGraph.back_add.
    unfold mbind, M_bind, DirectedGraph.inherited,
      DirectedGraph.back_getitem, DirectedGraph.back_setitem, lift_except,
      dict_getitem, modify, add_to_count.
    cbn [DirectedGraph.base DirectedGraph.back_adj].
    rewrite (adj_add_Some (mkGraph d0 _) u su v Hu).
    cbn [DirectedGraph.base DirectedGraph.back_adj adj _number_of_edges].
    by rewrite Hv.
  - split; cbn [DirectedGraph.base DirectedGraph.back_adj adj].
    + intros a b. rewrite !has_edge_insert.
      pose proof (has_edge_Some d0 u su b Hu) as Hsu.
      pose proof (has_edge_Some b0 v bv a Hv) as Hbv.
      specialize (Hcons a b). rewrite <- Hed, <- Heb in Hcons.
      destruct (decide (a = u)) as [->|Ha], (decide (b = v)) as [->|Hb'];
        rewrite ?elem_of_union, ?elem_of_singleton, <- ?Hsu, <- ?Hbv;
        clear Hloop Hd Hb Hdom Hed Heb Hu Hv Hsu Hbv; naive_solver.
    + rewrite !dom_insert_L, Hd, Hb, Hdom. set_solver.
  - cbn [DirectedGraph.base adj]. rewrite has_edge_insert, decide_True by done.
    set_solver.
  - done.
Qed.

End Properties.

(** C3. On a new directed graph, [add_edge(1, 2)] twice gives an edge count
    of 2 although [successors(1)] is the one-element set [{2}]. *)
Theorem directed_add_edge_twice_double_counts :
  let g := DirectedGraph.run [DirectedGraph.AddEdge 1 2; DirectedGraph.AddEdge 1 2] in
  DirectedGraph.edge_count g = 2 ∧
  len (DirectedGraph.edges g) = 2 ∧
  DirectedGraph.successors 1 g = Done ({[ 2 ]} : gset Z) g ∧
  size ({[ 2 ]} : gset Z) = 1%nat.
Proof. vm_compute. repeat split; reflexivity. Qed.

(** ** Concrete runs *)

Lemma undirected_iter_each_edge_once_witness :
  symmetric path_adj ∧ enumerates path_adj path_items ∧
  undirected_iter_from path_items = [(2, 3); (2, 1)] ∧
  undirected_iter (edges (mkGraph path_adj 2)) = [(3, 2); (2, 1)] ∧
  NoDup (undirected_iter_from path_items).
Proof.
  split; [compute_done|]. split; [compute_done|]. split; [reflexivity|].
  split; [vm_compute; reflexivity|].
  apply (undirected_iter_each_edge_once (mkGraph path_adj 2) path_items); compute_done.
Defined.

Lemma undirected_add_edge_commutes_witness :
  symmetric path_adj ∧
  UndirectedGraph.add_edge 1 3 (mkGraph path_adj 2)
  = UndirectedGraph.add_edge 3 1 (mkGraph path_adj 2).
Proof.
  split; [compute_done|].
  apply (undirected_add_edge_commutes (mkGraph path_adj 2) 1 3); compute_done.
Defined.

(** C10 as stated fails on an adjacency that is not symmetric: with
    [adj = {1: {2}, 2: set()}], [add_edge(1, 2)] finds [(1, 2)] among the
    edges and changes nothing, while [add_edge(2, 1)] does not find [(2, 1)],
    adds [1] to [adj[2]] and counts one more edge. *)
Lemma undirected_add_edge_order_matters :
  (1 : Z) ≠ 2 ∧
  UndirectedGraph.add_edge 1 2 lopsided = Done tt lopsided ∧
  UndirectedGraph.add_edge 2 1 lopsided
    = Done tt (mkGraph {[ 1 := {[ 2 ]}; 2 := {[ 1 ]} ]} 2) ∧
  UndirectedGraph.add_edge 1 2 lopsided ≠ UndirectedGraph.add_edge 2 1 lopsided.
Proof.
  split; [done|].
  assert (UndirectedGraph.add_edge 1 2 lopsided = Done tt lopsided) as H12
    by (vm_compute; reflexivity).
  assert (UndirectedGraph.add_edge 2 1 lopsided
          = Done tt (mkGraph {[ 1 := {[ 2 ]}; 2 := {[ 1 ]} ]} 2)) as H21
    by (vm_compute; reflexivity).
  split; [done|]. split; [done|].
  rewrite H12, H21. intros Heq.
  apply (f_equal (λ r, _number_of_edges (state_after r))) in Heq.
  vm_compute in Heq. discriminate.
Qed.

(** C1 fails on the code.  [add_node] is the method of [_Graph] and creates
    no key in [back_adj]; [remove_node] deletes the key of the node in
    [adj] only and leaves the node in the [back_adj] sets of its
    successors. *)
Theorem directed_maps_diverge :
  let g1 := DirectedGraph.run [DirectedGraph.AddNode 1] in
  let g2 := DirectedGraph.run [DirectedGraph.AddEdge 1 2; DirectedGraph.RemoveNode 1] in
  (dom (adj (DirectedGraph.base g1)) = ({[ 1 ]} : gset Z) ∧
   dom (DirectedGraph.back_adj g1) = (∅ : gset Z) ∧
   ¬ DirectedGraph.consistent g1) ∧
  (adj (DirectedGraph.base g2) = {[ 2 := ∅ ]} ∧
   DirectedGraph.back_adj g2 = {[ 1 := ∅; 2 := {[ 1 ]} ]} ∧
   has_edge (DirectedGraph.back_adj g2) 2 1 ∧
   ¬ has_edge (adj (DirectedGraph.base g2)) 1 2 ∧
   dom (adj (DirectedGraph.base g2)) ≠ dom (DirectedGraph.back_adj g2) ∧
   ¬ DirectedGraph.consistent g2).
Proof.
  intros g1 g2.
  assert (Hd1 : dom (adj (DirectedGraph.base g1)) = ({[ 1 ]} : gset Z))
    by (vm_compute; reflexivity).
  assert (Hb1 : dom (DirectedGraph.back_adj g1) = (∅ : gset Z))
    by (vm_compute; reflexivity).
  assert (Ha2 : adj (DirectedGraph.base g2) = {[ 2 := ∅ ]})
    by (vm_compute; reflexivity).
  assert (Hb2 : DirectedGraph.back_adj g2 = {[ 1 := ∅; 2 := {[ 1 ]} ]})
    by (vm_compute; reflexivity).
  assert (He2 : has_edge (DirectedGraph.back_adj g2) 2 1) by compute_done.
  assert (Hn2 : ¬ has_edge (adj (DirectedGraph.base g2)) 1 2) by compute_done.
  split; split_and!; try done.
  - intros [_ Hdom]. rewrite Hd1, Hb1 in Hdom. set_solver.
  - intros [Hcons _]. by apply Hn2, Hcons.
Qed.

(** C2 fails on the code for directed graphs: [remove_node] raises
    [KeyError] on a node made by [add_node] ([self.back_adj[node]] has no
    such key), and on a node whose predecessor was removed before
    ([self.adj[parent]] has no such key). *)
Theorem directed_remove_node_raises :
  let g1 := DirectedGraph.run [DirectedGraph.AddNode 1] in
  let g2 := DirectedGraph.run [DirectedGraph.AddEdge 1 2; DirectedGraph.RemoveNode 1] in
  DirectedGraph.remove_node 1 g1 = Raised KeyError g1 ∧
  DirectedGraph.remove_node 2 g2 = Raised KeyError g2 ∧
  (1 : Z) ∈ DirectedGraph.nodes g1 ∧ (2 : Z) ∈ DirectedGraph.nodes g2.
Proof.
  intros g1 g2. split_and!; [vm_compute; reflexivity | vm_compute; reflexivity | |];
    compute_done.
Qed.

(** * Further properties of the methods *)

Section Further.
Context {K : Type} `{Countable K}.
Implicit Types (g : Graph K) (dg : DirectedGraph.t K) (d : gmap K (gset K)).
Implicit Types (u v x label : K).

(** ** Undirected graphs *)

Lemma invariant_adj_eq g1 g2 :
  UndirectedGraph.invariant g1 → UndirectedGraph.invariant g2 →
  adj g1 = adj g2 → g1 = g2.
Proof.
  intros (_ & _ & Hn1) (_ & _ & Hn2) Hadj.
  destruct g1 as [d1 n1], g2 as [d2 n2]. simpl in *. subst d2. congruence.
Qed.

Lemma contains_true g u v : has_edge (adj g) u v → contains (edges g) (u, v) = Ok true.
Proof. intros Huv. rewrite contains_has_edge. by rewrite bool_decide_eq_true_2. Qed.

Lemma contains_false g u v : ¬ has_edge (adj g) u v → contains (edges g) (u, v) = Ok false.
Proof. intros Huv. rewrite contains_has_edge. by rewrite bool_decide_eq_false_2. Qed.

Lemma neighbors_has_edge g u v :
  has_edge (adj g) u v → ∃ s, UndirectedGraph.neighbors u g = Done s g ∧ v ∈ s.
Proof.
  intros (s & Hu & Hv)%has_edge_lookup. exists s. split; [|done].
  by apply adj_getitem_Some.
Qed.

(** X1. [remove_node] with a label that is not a node returns and leaves the
    graph as it is, in every state of an undirected or a directed graph. *)
Theorem remove_node_unknown_noop g dg label :
  (label ∉ nodes g → UndirectedGraph.remove_node label g = Done tt g) ∧
  (label ∉ DirectedGraph.nodes dg → DirectedGraph.remove_node label dg = Done tt dg).
Proof.
  split; intros Hl.
  - unfold UndirectedGraph.remove_node, gets, mbind, M_bind.
    by rewrite bool_decide_eq_false_2.
  - unfold DirectedGraph.remove_node, gets, mbind, M_bind.
    by rewrite bool_decide_eq_false_2.
Qed.

Lemma add_node_spec g x :
  ∃ g', add_node x g = Done tt g' ∧
        nodes g' = nodes g ∪ {[x]} ∧
        (∀ a b, has_edge (adj g') a b ↔ has_edge (adj g) a b) ∧
        _number_of_edges g' = _number_of_edges g ∧
        (x ∉ nodes g → adj g' !! x = Some ∅).
Proof.
  destruct (decide (x ∈ nodes g)) as [Hx|Hx].
  - exists g. rewrite add_node_known by done. split_and!; try done.
    unfold nodes in *. set_solver.
  - eexists. rewrite add_node_unknown by done. split_and!; [done | | | done |].
    + unfold nodes. simpl. rewrite dom_insert_L. set_solver.
    + intros a b. simpl. by apply has_edge_insert_empty.
    + intros _. simpl. apply lookup_insert_eq.
Qed.

(** X2. [add_node] returns in every state; it makes the label a node, leaves
    every other node and every edge in place and does not touch the edge
    count.  A label that was new has no neighbour afterwards. *)
Theorem add_node_frame g x :
  ∃ g', add_node x g = Done tt g' ∧
        nodes g' = nodes g ∪ {[x]} ∧
        (∀ a b, has_edge (adj g') a b ↔ has_edge (adj g) a b) ∧
        len (edges g') = len (edges g) ∧
        (x ∉ nodes g → UndirectedGraph.neighbors x g' = Done ∅ g').
Proof.
  destruct (add_node_spec g x) as (g' & Hrun & Hn & He & Hc & Hx).
  exists g'. split_and!; try done.
  intros Hnew. by apply adj_getitem_Some, Hx.
Qed.

(** X3. A graph reached from a new undirected graph has no self-loop, and the
    endpoints of each of its edges are nodes: whatever [neighbors(u)]
    returns can be passed to [neighbors] again without a [KeyError]. *)
Theorem undirected_reachable_shape (calls : list (UndirectedGraph.call K)) :
  let g := UndirectedGraph.run calls in
  (∀ x, contains (edges g) (x, x) = Ok false) ∧
  (∀ u su v, UndirectedGraph.neighbors u g = Done su g → v ∈ su →
     u ≠ v ∧ v ∈ nodes g ∧ ∃ sv, UndirectedGraph.neighbors v g = Done sv g ∧ u ∈ sv).
Proof.
  intros g. destruct (invariant_run calls) as (Hsym & Hloop & _).
  fold g in Hsym, Hloop. rewrite symmetric_has_edge in Hsym.
  rewrite loop_free_has_edge in Hloop. split.
  - intros x. apply contains_false, Hloop.
  - intros u su v Hu Hv.
    unfold UndirectedGraph.neighbors, adj_getitem, lift_except, dict_getitem in Hu.
    destruct (adj g !! u) as [s|] eqn:Hs; [|done]. injection Hu as ->.
    assert (has_edge (adj g) u v) as Huv by (by apply (has_edge_Some _ _ su)).
    split_and!.
    + intros ->. by apply (Hloop v).
    + by apply Hsym, has_edge_dom in Huv.
    + by apply neighbors_has_edge, Hsym.
Qed.

(** X4. On a graph reached from a new undirected graph, [add_edge(u, v)] with
    [u ≠ v] returns; [u] and [v] are nodes afterwards, both [(u, v)] and
    [(v, u)] are in the edge view, each endpoint is among the neighbours of
    the other, no other edge has changed, and the length of the edge view
    has grown by one exactly when the edge was not there before. *)
Theorem undirected_add_edge_inserts (calls : list (UndirectedGraph.call K)) u v :
  u ≠ v →
  let g := UndirectedGraph.run calls in
  ∃ g', UndirectedGraph.add_edge u v g = Done tt g' ∧
        nodes g' = nodes g ∪ {[u; v]} ∧
        contains (edges g') (u, v) = Ok true ∧
        contains (edges g') (v, u) = Ok true ∧
        (∃ su sv, UndirectedGraph.neighbors u g' = Done su g' ∧
                  UndirectedGraph.neighbors v g' = Done sv g' ∧
                  v ∈ su ∧ u ∈ sv) ∧
        (∀ a b, has_edge (adj g') a b ↔
                has_edge (adj g) a b ∨ (a = u ∧ b = v) ∨ (a = v ∧ b = u)) ∧
        len (edges g')
        = len (edges g) + (if decide (has_edge (adj g) u v) then 0 else 1).
Proof.
  intros Hne g. destruct (invariant_run calls) as (Hsym & _ & _). fold g in Hsym.
  rewrite symmetric_has_edge in Hsym.
  destruct (undirected_add_edge_spec g u v Hne) as (d' & Hrun & Hdom & He).
  assert (He' : ∀ a b, has_edge d' a b ↔
                       has_edge (adj g) a b ∨ (a = u ∧ b = v) ∨ (a = v ∧ b = u)).
  { intros a b. rewrite He. split; [tauto|].
    destruct (decide (has_edge (adj g) u v)) as [Huv|Huv]; [|tauto].
    intros [?|[[-> ->]|[-> ->]]]; auto. }
  assert (has_edge d' u v) as Huv by (apply He'; auto).
  assert (has_edge d' v u) as Hvu by (apply He'; auto).
  eexists. split; [exact Hrun|]. split_and!.
  - done.
  - by apply contains_true.
  - by apply contains_true.
  - destruct (neighbors_has_edge (mkGraph d' (if decide (has_edge (adj g) u v)
        then _number_of_edges g else _number_of_edges g + 1)) u v Huv) as (su & ? & ?).
    destruct (neighbors_has_edge (mkGraph d' (if decide (has_edge (adj g) u v)
        then _number_of_edges g else _number_of_edges g + 1)) v u Hvu) as (sv & ? & ?).
    eauto 10.
  - done.
  - unfold len. simpl. case_decide; lia.
Qed.

(** X5. [add_edge] on an undirected graph is idempotent in every state:
    a second call with the same arguments changes nothing, in particular
    not the edge count. *)
Theorem undirected_add_edge_idempotent g u v :
  (UndirectedGraph.add_edge u v;; UndirectedGraph.add_edge u v) g
  = UndirectedGraph.add_edge u v g.
Proof.
  destruct (decide (u = v)) as [->|Hne].
  { rewrite (bind_Raised _ _ _ _ _ (undirected_add_edge_self_loop g v)).
    by rewrite undirected_add_edge_self_loop. }
  destruct (undirected_add_edge_spec g u v Hne) as (d1 & Hrun & Hdom & He).
  rewrite (bind_Done _ _ _ _ _ Hrun), Hrun.
  set (n1 := if decide (has_edge (adj g) u v)
             then _number_of_edges g else _number_of_edges g + 1) in *.
  assert (has_edge d1 u v) as Huv.
  { apply He. destruct (decide (has_edge (adj g) u v)); auto. }
  destruct (undirected_add_edge_spec (mkGraph d1 n1) u v Hne) as (d2 & -> & Hdom2 & He2).
  simpl in *. rewrite decide_True by done. do 2 f_equal.
  apply dict_ext.
  - rewrite Hdom2, Hdom. set_solver.
  - intros a b. rewrite He2. tauto.
Qed.

(** X6. On a graph reached from a new undirected graph, adding a node that
    is new and removing it again gives the graph back, and so does joining
    a new node [v] to an existing node [u] by an edge and then removing
    [v]. *)
Theorem undirected_remove_node_undoes (calls : list (UndirectedGraph.call K)) u v :
  let g := UndirectedGraph.run calls in
  v ∉ nodes g →
  (add_node v;; UndirectedGraph.remove_node v) g = Done tt g ∧
  (u ∈ nodes g →
   (UndirectedGraph.add_edge u v;; UndirectedGraph.remove_node v) g = Done tt g).
Proof.
  intros g Hv. pose proof (invariant_run calls) as Hinv. fold g in Hinv.
  assert (Hnov : ∀ a b, has_edge (adj g) a b → a ≠ v ∧ b ≠ v).
  { destruct Hinv as (Hsym & _ & _). rewrite symmetric_has_edge in Hsym.
    intros a b Hab. split; intros ->.
    - by apply has_edge_dom in Hab.
    - by apply Hsym, has_edge_dom in Hab. }
  assert (Hback : ∀ g1 : Graph K, UndirectedGraph.invariant g1 →
    nodes g1 = nodes g ∪ {[v]} →
    (∀ a b, has_edge (adj g1) a b ∧ a ≠ v ∧ b ≠ v ↔ has_edge (adj g) a b) →
    UndirectedGraph.remove_node v g1 = Done tt g).
  { intros g1 Hinv1 Hn1 He1. pose proof Hinv1 as (Hsym1 & Hloop1 & _).
    destruct (undirected_remove_node_spec g1 v Hsym1 Hloop1) as (d' & Hrun & Hdom & He).
    pose proof (invariant_remove_node g1 v Hinv1) as Hinv'.
    rewrite Hrun in Hinv' |- *. simpl in Hinv'. f_equal.
    apply invariant_adj_eq; [done | done |]. simpl. apply dict_ext.
    - rewrite Hdom. unfold nodes in *. rewrite Hn1. set_solver.
    - intros a b. by rewrite He, He1. }
  split.
  - destruct (add_node_spec g v) as (g1 & Hrun & Hn1 & He1 & _ & _).
    rewrite (bind_Done _ _ _ _ _ Hrun). apply Hback.
    + pose proof (invariant_add_node g v Hinv) as Hi. by rewrite Hrun in Hi.
    + done.
    + intros a b. rewrite He1. specialize (Hnov a b). tauto.
  - intros Hu. assert (u ≠ v) as Hne by (by intros ->).
    destruct (undirected_add_edge_spec g u v Hne) as (d1 & Hrun & Hdom & He).
    rewrite (bind_Done _ _ _ _ _ Hrun). apply Hback.
    + pose proof (invariant_add_edge g u v Hinv) as Hi. by rewrite Hrun in Hi.
    + unfold nodes in *. simpl. rewrite Hdom. set_solver.
    + intros a b. simpl. rewrite He. specialize (Hnov a b). clear -Hnov Hne.
      naive_solver.
Qed.

Lemma undirected_remove_node_step g label :
  UndirectedGraph.invariant g →
  ∃ g', UndirectedGraph.remove_node label g = Done tt g' ∧
        UndirectedGraph.invariant g' ∧
        dom (adj g') = dom (adj g) ∖ {[label]} ∧
        (∀ a b, has_edge (adj g') a b ↔ has_edge (adj g) a b ∧ a ≠ label ∧ b ≠ label) ∧
        _number_of_edges g'
        = _number_of_edges g - Z.of_nat (size (default ∅ (adj g !! label))).
Proof.
  intros Hinv. pose proof Hinv as (Hsym & Hloop & _).
  destruct (undirected_remove_node_spec g label Hsym Hloop) as (d' & Hrun & Hdom & He).
  pose proof (invariant_remove_node g label Hinv) as Hinv'. rewrite Hrun in Hinv'.
  eexists. split; [exact Hrun|]. done.
Qed.




(** X9. On a graph reached from a new undirected graph, [remove_node]
    returns; the label is no node afterwards, exactly the edges at it are
    gone, the length of the edge view has dropped by the number of its
    neighbours, no pair with the label is in the edge view, and
    [neighbors] of the label raises [KeyError]. *)
Theorem undirected_remove_node_cascades (calls : list (UndirectedGraph.call K)) label :
  let g := UndirectedGraph.run calls in
  ∃ g', UndirectedGraph.remove_node label g = Done tt g' ∧
        nodes g' = nodes g ∖ {[label]} ∧
        (∀ a b, has_edge (adj g') a b ↔ has_edge (adj g) a b ∧ a ≠ label ∧ b ≠ label) ∧
        len (edges g')
        = len (edges g) - Z.of_nat (size (default ∅ (adj g !! label))) ∧
        (∀ x, contains (edges g') (label, x) = Ok false ∧
              contains (edges g') (x, label) = Ok false) ∧
        UndirectedGraph.neighbors label g' = Raised KeyError g'.
Proof.
  intros g. pose proof (invariant_run calls) as Hinv. fold g in Hinv.
  destruct (undirected_remove_node_step g label Hinv) as (g' & Hrun & _ & Hd & He & Hn).
  exists g'. split_and!; try done.
  - intros x. split; apply contains_false; rewrite He; tauto.
  - apply adj_getitem_None, not_elem_of_dom. rewrite Hd. set_solver.
Qed.

(** ** Iteration and length of the undirected edge view *)

Lemma frozenset_NoDup (out : list (K * K)) :
  (∀ X, length (filter (λ e : K * K, frozenset e = X) out) ≤ 1)%nat →
  NoDup (frozenset <$> out).
Proof.
  induction out as [|e out IH]; intros Hc; [constructor|].
  rewrite fmap_cons. constructor.
  - intros (e' & Heq & He')%list_elem_of_fmap. specialize (Hc (frozenset e)).
    rewrite filter_cons, decide_True in Hc by done. simpl in Hc.
    assert (e' ∈ filter (λ e0 : K * K, frozenset e0 = frozenset e) out) as Hf
      by (by apply list_elem_of_filter).
    destruct (filter _ out); [by apply elem_of_nil in Hf | simpl in Hc; lia].
  - apply IH. intros X. specialize (Hc X). rewrite filter_cons in Hc.
    case_decide; simpl in Hc; lia.
Qed.

Lemma undirected_iter_from_length d (items : list (K * list K)) :
  enumerates d items →
  length (undirected_iter_from items) = size (unordered_pairs d).
Proof.
  intros Henum.
  destruct (undirected_iter_outer_spec items ∅) as (Hmem & Hcount).
  fold (undirected_iter_from items) in Hmem, Hcount.
  set (out := undirected_iter_from items) in *.
  rewrite <- (length_fmap frozenset out), <- (size_list_to_set (C := gset (gset K))).
  - f_equal. apply set_eq. intros X.
    rewrite elem_of_list_to_set, list_elem_of_fmap, elem_of_unordered_pairs. split.
    + intros ([a b] & -> & He). exists a, b. split; [|done].
      by apply (enumerates_has_edge d items), elem_of_directed_iter_from, Hmem.
    + intros (a & b & Hab & ->). specialize (Hcount (frozenset (a, b))).
      rewrite decide_True in Hcount.
      * destruct (filter _ out) as [|e r] eqn:Hf; [done|].
        assert (e ∈ filter (λ e : K * K, frozenset e = frozenset (a, b)) out) as He
          by (rewrite Hf; left).
        apply list_elem_of_filter in He as [? ?]. eauto.
      * split; [|set_solver]. apply elem_of_list_to_set, list_elem_of_fmap_2.
        by apply elem_of_directed_iter_from, (enumerates_has_edge d).
  - apply frozenset_NoDup. intros X. rewrite Hcount. case_decide; lia.
Qed.

(** X10. On a graph reached from a new undirected graph, iterating the edge
    view, in whatever order the dictionary and its sets are enumerated,
    yields as many pairs as the length of the view says, and each yielded
    pair is in the view, in both orientations. *)
Theorem undirected_iter_agrees_with_len (calls : list (UndirectedGraph.call K))
    (items : list (K * list K)) :
  let g := UndirectedGraph.run calls in
  enumerates (_adj (edges g)) items →
  Z.of_nat (length (undirected_iter_from items)) = len (edges g) ∧
  (∀ a b, (a, b) ∈ undirected_iter_from items →
     contains (edges g) (a, b) = Ok true ∧ contains (edges g) (b, a) = Ok true).
Proof.
  intros g Henum. destruct (invariant_run calls) as (Hsym & _ & Hcount).
  fold g in Hsym, Hcount. rewrite symmetric_has_edge in Hsym. simpl in Henum. split.
  - unfold len. simpl. by rewrite Hcount, (undirected_iter_from_length (adj g)).
  - intros a b Hab.
    destruct (undirected_iter_outer_spec items ∅) as (Hmem & _).
    apply Hmem, elem_of_directed_iter_from, (enumerates_has_edge (adj g)) in Hab;
      [|done].
    split; apply contains_true; auto.
Qed.

(** ** Directed graphs *)

Lemma bind_singleton_fmap {A B} (f : A → B) (l : list A) :
  l ≫= (λ a, [f a]) = f <$> l.
Proof. induction l as [|a l IH]; [done|]. csimpl. by rewrite IH. Qed.

Lemma directed_iter_from_NoDup (items : list (K * list K)) :
  NoDup items.*1 → Forall (λ p, NoDup p.2) items →
  NoDup (directed_iter_from items).
Proof.
  induction items as [|[u l] items IH]; intros Hkeys Hsets; [constructor|].
  apply NoDup_cons in Hkeys as [Hu Hkeys]. apply Forall_cons in Hsets as [Hl Hsets].
  change (directed_iter_from ((u, l) :: items))
    with ((l ≫= λ v, [(u, v)]) ++ directed_iter_from items).
  rewrite bind_singleton_fmap. apply NoDup_app. split_and!.
  - apply NoDup_fmap_2; [|done]. by intros ?? [=].
  - intros e (v & -> & _)%list_elem_of_fmap (l' & Hin & _)%elem_of_directed_iter_from.
    apply Hu, list_elem_of_fmap. by exists (u, l').
  - by apply IH.
Qed.

(** X11. Iterating the edge view of a directed graph, in whatever order the
    dictionary and its sets are enumerated, yields every ordered pair
    [(a, b)] with [b] in [adj[a]] exactly once and nothing else: a pair is
    yielded exactly when the containment test of the view accepts it. *)
Theorem directed_iter_each_edge_once dg (items : list (K * list K)) :
  enumerates (_adj (DirectedGraph.edges dg)) items →
  let out := directed_iter_from items in
  NoDup out ∧
  (∀ a b, (a, b) ∈ out ↔ contains (DirectedGraph.edges dg) (a, b) = Ok true) ∧
  length out = length (directed_iter (DirectedGraph.edges dg)).
Proof.
  intros Henum out.
  assert (Hnodup : ∀ its, enumerates (_adj (DirectedGraph.edges dg)) its →
                          NoDup (directed_iter_from its)).
  { intros its (Hkeys & Hall & _). apply directed_iter_from_NoDup; [done|].
    eapply Forall_impl; [exact Hall|]. by intros p [? _]. }
  assert (Hmem : ∀ its, enumerates (_adj (DirectedGraph.edges dg)) its →
    ∀ a b, (a, b) ∈ directed_iter_from its
           ↔ has_edge (_adj (DirectedGraph.edges dg)) a b).
  { intros its Hits a b. rewrite elem_of_directed_iter_from.
    by apply enumerates_has_edge. }
  split_and!.
  - by apply Hnodup.
  - intros a b. unfold out. rewrite (Hmem items Henum), contains_has_edge. split.
    + intros Hab. by rewrite bool_decide_eq_true_2.
    + intros [= Hab]. by apply bool_decide_eq_true in Hab.
  - apply Permutation_length, NoDup_Permutation.
    + by apply Hnodup.
    + apply Hnodup, dict_items_enumerates.
    + intros [a b]. unfold out, directed_iter.
      by rewrite (Hmem items Henum), (Hmem _ (dict_items_enumerates _)).
Qed.

Lemma directed_add_edge_spec dg u v :
  ∃ d' b',
    DirectedGraph.add_edge u v dg
    = Done tt (DirectedGraph.mk (mkGraph d' (DirectedGraph.edge_count dg + 1)) b') ∧
    dom d' = dom (adj (DirectedGraph.base dg)) ∪ {[u; v]} ∧
    dom b' = dom (DirectedGraph.back_adj dg) ∪ {[u; v]} ∧
    (∀ a b, has_edge d' a b ↔
            has_edge (adj (DirectedGraph.base dg)) a b ∨ (a = u ∧ b = v)) ∧
    (∀ a b, has_edge b' a b ↔
            has_edge (DirectedGraph.back_adj dg) a b ∨ (a = v ∧ b = u)).
Proof.
  destruct (directed_create_missing_spec (elements ({[u; v]} : gset K)) dg)
    as (d0 & b0 & Hloop & Hd & Hb & Hed & Heb).
  rewrite list_to_set_elements_L in Hd, Hb.
  assert (is_Some (d0 !! u)) as [su Hu] by (apply elem_of_dom; set_solver).
  assert (is_Some (b0 !! v)) as [bv Hv] by (apply elem_of_dom; set_solver).
  exists (<[u := su ∪ {[v]}]> d0), (<[v := bv ∪ {[u]}]> b0). split_and!.
  - unfold DirectedGraph.add_edge. rewrite (bind_Done _ _ _ _ _ Hloop).
    unfold DirectedGraph.back_add.
    unfold mbind, M_bind, DirectedGraph.inherited,
      DirectedGraph.back_getitem, DirectedGraph.back_setitem, lift_except,
      dict_getitem, modify, add_to_count.
    cbn [DirectedGraph.base DirectedGraph.back_adj].
    rewrite (adj_add_Some (mkGraph d0 _) u su v Hu).
    cbn [DirectedGraph.base DirectedGraph.back_adj adj _number_of_edges].
    by rewrite Hv.
  - rewrite dom_insert_L, Hd. set_solver.
  - rewrite dom_insert_L, Hb. set_solver.
  - intros a b. rewrite has_edge_insert, <- Hed.
    destruct (decide (a = u)) as [->|Ha].
    + rewrite elem_of_union, elem_of_singleton, <- (has_edge_Some d0 u su b Hu).
      naive_solver.
    + naive_solver.
  - intros a b. rewrite has_edge_insert, <- Heb.
    destruct (decide (a = v)) as [->|Ha].
    + rewrite elem_of_union, elem_of_singleton, <- (has_edge_Some b0 v bv b Hv).
      naive_solver.
    + naive_solver.
Qed.

Lemma successors_has_edge dg u v :
  has_edge (adj (DirectedGraph.base dg)) u v →
  ∃ s, DirectedGraph.successors u dg = Done s dg ∧ v ∈ s.
Proof.
  intros (s & Hu & Hv)%has_edge_lookup. exists s. split; [|done].
  unfold DirectedGraph.successors, DirectedGraph.inherited.
  rewrite (adj_getitem_Some _ _ _ Hu). by destruct dg.
Qed.

Lemma predecessors_has_edge dg u v :
  has_edge (DirectedGraph.back_adj dg) v u →
  ∃ s, DirectedGraph.predecessors v dg = Done s dg ∧ u ∈ s.
Proof.
  intros (s & Hv & Hu)%has_edge_lookup. exists s. split; [|done].
  unfold DirectedGraph.predecessors, DirectedGraph.back_getitem, lift_except,
    dict_getitem. by rewrite Hv.
Qed.

(** X12. [add_edge(u, v)] on a directed graph returns in every state, for
    [u = v] too.  Afterwards [u] and [v] are nodes, [(u, v)] is in the edge
    view, [successors(u)] and [neighbors(u)] return a set with [v],
    [predecessors(v)] returns a set with [u], the other forward edges are
    as before, and the edge count is one higher, whether or not the edge
    was there already. *)
Theorem directed_add_edge_inserts dg u v :
  ∃ dg', DirectedGraph.add_edge u v dg = Done tt dg' ∧
         DirectedGraph.nodes dg' = DirectedGraph.nodes dg ∪ {[u; v]} ∧
         contains (DirectedGraph.edges dg') (u, v) = Ok true ∧
         (∃ s, DirectedGraph.successors u dg' = Done s dg' ∧
               DirectedGraph.neighbors u dg' = Done s dg' ∧ v ∈ s) ∧
         (∃ s, DirectedGraph.predecessors v dg' = Done s dg' ∧ u ∈ s) ∧
         (∀ a b, has_edge (adj (DirectedGraph.base dg')) a b ↔
                 has_edge (adj (DirectedGraph.base dg)) a b ∨ (a = u ∧ b = v)) ∧
         len (DirectedGraph.edges dg') = len (DirectedGraph.edges dg) + 1.
Proof.
  destruct (directed_add_edge_spec dg u v) as (d' & b' & Hrun & Hd & Hb & Hed & Heb).
  eexists. split; [exact Hrun|].
  assert (has_edge d' u v) as Huv by (apply Hed; auto).
  assert (has_edge b' v u) as Hvu by (apply Heb; auto).
  split_and!.
  - done.
  - unfold DirectedGraph.edges. by apply contains_true.
  - destruct (successors_has_edge
      (DirectedGraph.mk (mkGraph d' (DirectedGraph.edge_count dg + 1)) b') u v Huv)
      as (s & ? & ?). eauto.
  - by apply predecessors_has_edge.
  - done.
  - done.
Qed.

Lemma directed_init_consistent :
  DirectedGraph.consistent (DirectedGraph.init (K := K)).
Proof.
  split; [|done]. intros u v. simpl.
  split; intros Hc; by apply has_edge_empty in Hc.
Qed.

(** X13. From a directed graph whose two maps agree, any number of
    [add_edge] calls leaves them in agreement, so that [v] is a successor
    of [u] exactly when [u] is a predecessor of [v]; the edge count goes up
    by the number of calls. *)
Theorem directed_add_edges_consistent dg (pairs : list (K * K)) :
  DirectedGraph.consistent dg →
  let dg' := foldl (λ s e, state_after (DirectedGraph.add_edge e.1 e.2 s)) dg pairs in
  DirectedGraph.consistent dg' ∧
  DirectedGraph.edge_count dg' = DirectedGraph.edge_count dg + Z.of_nat (length pairs).
Proof.
  intros Hcons. induction pairs as [|[u v] pairs IH] using rev_ind; simpl.
  - split; [done | lia].
  - rewrite foldl_snoc, length_app. simpl. destruct IH as [IHc IHn].
    destruct (directed_add_edge_consistent _ u v IHc) as (dg1 & -> & Hc1 & _ & Hn1).
    simpl. split; [done|]. rewrite Hn1, IHn. lia.
Qed.

(** X14. [add_node] on a directed graph only writes the forward map: it
    returns, makes the label a node and leaves [back_adj] and the edge
    count alone.  For a label that was new, [successors] then returns the
    empty set; if the label was no key of [back_adj] either, [predecessors]
    raises [KeyError] for it, and so does [remove_node]. *)
Theorem directed_add_node_forward_only dg x :
  ∃ dg', DirectedGraph.add_node x dg = Done tt dg' ∧
         DirectedGraph.nodes dg' = DirectedGraph.nodes dg ∪ {[x]} ∧
         DirectedGraph.back_adj dg' = DirectedGraph.back_adj dg ∧
         len (DirectedGraph.edges dg') = len (DirectedGraph.edges dg) ∧
         (x ∉ DirectedGraph.nodes dg →
            DirectedGraph.successors x dg' = Done ∅ dg') ∧
         (x ∉ dom (DirectedGraph.back_adj dg) →
            DirectedGraph.predecessors x dg' = Raised KeyError dg' ∧
            DirectedGraph.remove_node x dg' = Raised KeyError dg').
Proof.
  destruct (add_node_spec (DirectedGraph.base dg) x) as (g' & Hrun & Hn & _ & Hlen & Hnb).
  exists (DirectedGraph.mk g' (DirectedGraph.back_adj dg)).
  assert (Hback : x ∉ dom (DirectedGraph.back_adj dg) →
    DirectedGraph.back_getitem x (DirectedGraph.mk g' (DirectedGraph.back_adj dg))
    = Raised KeyError (DirectedGraph.mk g' (DirectedGraph.back_adj dg))).
  { intros Hx%not_elem_of_dom.
    unfold DirectedGraph.back_getitem, lift_except, dict_getitem. simpl. by rewrite Hx. }
  split_and!.
  - unfold DirectedGraph.add_node, DirectedGraph.inherited. by rewrite Hrun.
  - done.
  - done.
  - done.
  - intros Hx. unfold DirectedGraph.successors, DirectedGraph.inherited. simpl.
    by rewrite (adj_getitem_Some g' x ∅ (Hnb Hx)).
  - intros Hx. split; [by apply Hback|].
    unfold DirectedGraph.remove_node, gets. unfold mbind at 1, M_bind at 1.
    rewrite bool_decide_eq_true_2
      by (unfold DirectedGraph.nodes; simpl; rewrite Hn; set_solver).
    simpl. by rewrite (bind_Raised _ _ _ _ _ (Hback Hx)).
Qed.

(** ** [DirectedGraph.remove_node] on a graph whose maps agree *)

Lemma directed_discard_loop_spec node (l : list K) dg :
  (∀ x, x ∈ l → x ∈ dom (adj (DirectedGraph.base dg))) →
  ∃ d', for_each l (λ parent,
          DirectedGraph.inherited (adj_discard parent node);;
          DirectedGraph.inherited (modify (add_to_count (-1)))) dg
        = Done tt (DirectedGraph.mk
                     (mkGraph d' (DirectedGraph.edge_count dg - Z.of_nat (length l)))
                     (DirectedGraph.back_adj dg)) ∧
        dom d' = dom (adj (DirectedGraph.base dg)) ∧
        ∀ a b, has_edge d' a b ↔
               has_edge (adj (DirectedGraph.base dg)) a b ∧ ¬ (a ∈ l ∧ b = node).
Proof.
  revert dg. induction l as [|x l IH]; intros [[d n] bk] Hl;
    unfold DirectedGraph.edge_count in *;
    cbn [DirectedGraph.base DirectedGraph.back_adj adj _number_of_edges] in *.
  - exists d. simpl. rewrite Z.sub_0_r. split_and!; [done | done | set_solver].
  - assert (x ∈ dom d) as [s Hs]%elem_of_dom by (apply Hl; left).
    destruct (IH (DirectedGraph.mk (mkGraph (<[x := s ∖ {[node]}]> d) (n + -1)) bk))
      as (d' & Hrun & Hdom' & He).
    { intros y Hy. cbn. rewrite dom_insert_L. apply elem_of_union_r, Hl. by right. }
    cbn [DirectedGraph.base DirectedGraph.back_adj adj _number_of_edges] in *.
    exists d'. split_and!.
    + cbn [for_each]. erewrite bind_Done.
      * rewrite Hrun. simpl. do 3 f_equal; lia.
      * unfold mbind, M_bind, DirectedGraph.inherited, modify, add_to_count.
        cbn [DirectedGraph.base DirectedGraph.back_adj].
        by rewrite (adj_discard_Some (mkGraph d n) x s node Hs).
    + rewrite Hdom', dom_insert_L.
      assert (x ∈ dom d) by (apply elem_of_dom; eauto). set_solver.
    + intros a b. rewrite He, has_edge_insert.
      pose proof (has_edge_Some d x s b Hs).
      case_decide; subst; set_solver.
Qed.

Lemma directed_remove_node_tail node dg (succs preds : gset K) :
  adj (DirectedGraph.base dg) !! node = Some succs →
  DirectedGraph.back_adj dg !! node = Some preds →
  node ∉ preds →
  (∀ x, x ∈ preds → x ∈ dom (adj (DirectedGraph.base dg))) →
  ∃ d', (parents ← DirectedGraph.back_getitem node;
         for_each (elements parents) (λ parent,
           DirectedGraph.inherited (adj_discard parent node);;
           DirectedGraph.inherited (modify (add_to_count (-1))));;
         out ← DirectedGraph.inherited (adj_getitem node);
         DirectedGraph.inherited (modify (add_to_count (- Z.of_nat (size out))));;
         DirectedGraph.inherited (adj_delitem node)) dg
        = Done tt (DirectedGraph.mk
                     (mkGraph d' (DirectedGraph.edge_count dg
                                  - Z.of_nat (size preds) - Z.of_nat (size succs)))
                     (DirectedGraph.back_adj dg)) ∧
        dom d' = dom (adj (DirectedGraph.base dg)) ∖ {[node]} ∧
        ∀ a b, has_edge d' a b ↔
               has_edge (adj (DirectedGraph.base dg)) a b ∧ a ≠ node ∧
               ¬ (a ∈ preds ∧ b = node).
Proof.
  intros Hsuccs Hpreds Hself Hknown.
  assert (DirectedGraph.back_getitem node dg = Done preds dg) as Hget.
  { unfold DirectedGraph.back_getitem, lift_except, dict_getitem. by rewrite Hpreds. }
  rewrite (bind_Done _ _ _ _ _ Hget).
  destruct (directed_discard_loop_spec node (elements preds) dg) as (d2 & Hloop & Hdom2 & He2).
  { intros x Hx%elem_of_elements. by apply Hknown. }
  rewrite (bind_Done _ _ _ _ _ Hloop).
  assert (is_Some (d2 !! node)) as [out Hout].
  { apply elem_of_dom. rewrite Hdom2. apply elem_of_dom. eauto. }
  assert (out = succs) as ->.
  { apply set_eq. intros b.
    rewrite <- (has_edge_Some d2 node out b Hout), He2,
      (has_edge_Some _ node succs b Hsuccs), elem_of_elements. tauto. }
  exists (delete node d2). split_and!.
  - unfold mbind, M_bind, DirectedGraph.inherited, adj_delitem, modify, add_to_count,
      set_adj, mbind, M_bind.
    cbn [DirectedGraph.base DirectedGraph.back_adj adj _number_of_edges].
    rewrite (adj_getitem_Some (mkGraph d2 _) node succs Hout).
    cbn [DirectedGraph.base DirectedGraph.back_adj adj _number_of_edges].
    rewrite (adj_getitem_Some (mkGraph d2 _) node succs Hout).
    cbn [DirectedGraph.base DirectedGraph.back_adj adj _number_of_edges].
    change (length (elements preds)) with (size preds). do 3 f_equal; lia.
  - by rewrite dom_delete_L, Hdom2.
  - intros a b. rewrite has_edge_delete, He2, elem_of_elements. tauto.
Qed.

Lemma directed_remove_node_spec dg node (succs preds : gset K) :
  DirectedGraph.consistent dg →
  adj (DirectedGraph.base dg) !! node = Some succs →
  DirectedGraph.back_adj dg !! node = Some preds →
  ∃ d', DirectedGraph.remove_node node dg
        = Done tt (DirectedGraph.mk
            (mkGraph d' (DirectedGraph.edge_count dg
                         - (if decide (node ∈ preds) then 1 else 0)
                         - Z.of_nat (size (preds ∖ {[node]}))
                         - Z.of_nat (size (succs ∖ {[node]}))))
            (if decide (node ∈ preds)
             then <[node := preds ∖ {[node]}]> (DirectedGraph.back_adj dg)
             else DirectedGraph.back_adj dg)) ∧
        dom d' = dom (adj (DirectedGraph.base dg)) ∖ {[node]} ∧
        ∀ a b, has_edge d' a b ↔
               has_edge (adj (DirectedGraph.base dg)) a b ∧ a ≠ node ∧ b ≠ node.
Proof.
  intros [Hcons Hdom] Hsuccs Hpreds.
  assert (Hpk : ∀ x, x ∈ preds → x ∈ dom (adj (DirectedGraph.base dg))).
  { intros x Hx. apply (has_edge_dom _ x node), Hcons.
    by apply (has_edge_Some _ _ _ _ Hpreds). }
  assert (Hin : ∀ a, has_edge (adj (DirectedGraph.base dg)) a node ↔ a ∈ preds).
  { intros a. by rewrite Hcons, (has_edge_Some _ _ _ _ Hpreds). }
  assert (Hloop : node ∈ preds ↔ node ∈ succs).
  { by rewrite <- Hin, (has_edge_Some _ _ _ _ Hsuccs). }
  unfold DirectedGraph.remove_node, gets. unfold mbind at 1, M_bind at 1.
  rewrite bool_decide_eq_true_2
    by (unfold DirectedGraph.nodes, nodes; apply elem_of_dom; eauto).
  cbn [negb].
  assert (DirectedGraph.back_getitem node dg = Done preds dg) as Hget.
  { unfold DirectedGraph.back_getitem, lift_except, dict_getitem. by rewrite Hpreds. }
  rewrite (bind_Done _ _ _ _ _ Hget).
  destruct (decide (node ∈ preds)) as [Hself|Hself].
  - set (dg1 := DirectedGraph.mk
        (mkGraph (<[node := succs ∖ {[node]}]> (adj (DirectedGraph.base dg)))
                 (DirectedGraph.edge_count dg + -1))
        (<[node := preds ∖ {[node]}]> (DirectedGraph.back_adj dg))).
    assert ((DirectedGraph.inherited (adj_discard node node);;
             DirectedGraph.back_discard node node;;
             DirectedGraph.inherited (modify (add_to_count (-1)))) dg
            = Done tt dg1) as Hfirst.
    { unfold DirectedGraph.back_discard.
      unfold mbind, M_bind, DirectedGraph.inherited, DirectedGraph.back_getitem,
        DirectedGraph.back_setitem, lift_except, dict_getitem, modify, add_to_count.
      rewrite (adj_discard_Some _ node succs node Hsuccs).
      cbn [DirectedGraph.base DirectedGraph.back_adj adj _number_of_edges].
      by rewrite Hpreds. }
    rewrite (bind_Done _ _ _ _ _ Hfirst).
    destruct (directed_remove_node_tail node dg1 (succs ∖ {[node]}) (preds ∖ {[node]}))
      as (d' & Htail & Hdom' & He').
    { apply lookup_insert_eq. }
    { apply lookup_insert_eq. }
    { set_solver. }
    { intros x Hx. cbn. rewrite dom_insert_L. apply elem_of_union_r, Hpk. set_solver. }
    exists d'. split_and!.
    + rewrite Htail. unfold dg1, DirectedGraph.edge_count. cbn. do 3 f_equal; lia.
    + rewrite Hdom'. cbn. rewrite dom_insert_L. set_solver.
    + intros a b. rewrite He'. cbn. rewrite has_edge_insert.
      destruct (decide (a = node)) as [->|Ha]; [tauto|].
      specialize (Hin a). split.
      * intros (Hab & _ & Hn). split_and!; [done | done |].
        intros ->. apply Hn. split; [|done]. apply elem_of_difference.
        split; [by apply Hin | by apply not_elem_of_singleton].
      * intros (Hab & _ & Hb). split_and!; [done | done | tauto].
  - rewrite (bind_Done _ _ dg tt dg) by done.
    destruct (directed_remove_node_tail node dg succs preds Hsuccs Hpreds Hself Hpk)
      as (d' & Htail & Hdom' & He').
    assert (preds ∖ {[node]} = preds) as -> by set_solver.
    assert (succs ∖ {[node]} = succs) as -> by set_solver.
    exists d'. split_and!.
    + rewrite Htail. do 3 f_equal; lia.
    + done.
    + intros a b. rewrite He'. specialize (Hin a). split.
      * intros (Hab & Ha & Hn). split_and!; [done | done |].
        intros ->. apply Hn. tauto.
      * intros (Hab & Ha & Hb). split_and!; [done | done | tauto].
Qed.

(** X15. On a directed graph whose two maps agree, [remove_node] of a node
    returns.  The node and every forward edge from or to it are gone, the
    other forward edges are as before, and the length of the edge view has
    dropped by one for a self-loop, one for each other predecessor and one
    for each other successor.  [back_adj] keeps all its keys, the removed
    node among them. *)
Theorem directed_remove_node_from_consistent dg node :
  DirectedGraph.consistent dg → node ∈ DirectedGraph.nodes dg →
  let succs := default ∅ (adj (DirectedGraph.base dg) !! node) in
  let preds := default ∅ (DirectedGraph.back_adj dg !! node) in
  ∃ dg', DirectedGraph.remove_node node dg = Done tt dg' ∧
         DirectedGraph.nodes dg' = DirectedGraph.nodes dg ∖ {[node]} ∧
         (∀ a b, has_edge (adj (DirectedGraph.base dg')) a b ↔
                 has_edge (adj (DirectedGraph.base dg)) a b ∧ a ≠ node ∧ b ≠ node) ∧
         len (DirectedGraph.edges dg')
         = len (DirectedGraph.edges dg)
           - (if decide (has_edge (adj (DirectedGraph.base dg)) node node)
              then 1 else 0)
           - Z.of_nat (size (preds ∖ {[node]}))
           - Z.of_nat (size (succs ∖ {[node]})) ∧
         dom (DirectedGraph.back_adj dg') = dom (DirectedGraph.back_adj dg).
Proof.
  intros Hcons Hnode succs preds. pose proof Hcons as [Hc Hdom].
  unfold DirectedGraph.nodes, nodes in Hnode.
  assert (is_Some (adj (DirectedGraph.base dg) !! node)) as [s Hs]
    by (by apply elem_of_dom).
  assert (is_Some (DirectedGraph.back_adj dg !! node)) as [p Hp]
    by (apply elem_of_dom; by rewrite <- Hdom).
  subst succs preds. rewrite Hs, Hp. cbn [default].
  destruct (directed_remove_node_spec dg node s p Hcons Hs Hp) as (d' & Hrun & Hd & He).
  assert (node ∈ p ↔ has_edge (adj (DirectedGraph.base dg)) node node) as Hloop.
  { by rewrite <- (has_edge_Some _ _ _ _ Hp), Hc. }
  eexists. split; [exact Hrun|]. split_and!.
  - done.
  - done.
  - unfold len, DirectedGraph.edges, DirectedGraph.edge_count. simpl.
    repeat case_decide; tauto || lia.
  - simpl. case_decide; [|done]. rewrite dom_insert_L.
    assert (node ∈ dom (DirectedGraph.back_adj dg)) by (apply elem_of_dom; eauto).
    set_solver.
Qed.

(** ** Counting the pairs a directed edge view iterates *)

Lemma edge_pairs_NoDup d : NoDup (edge_pairs d).
Proof.
  destruct (dict_items_enumerates d) as (Hkeys & Hall & _).
  apply directed_iter_from_NoDup; [done|].
  eapply Forall_impl; [exact Hall|]. by intros p [? _].
Qed.

Lemma edge_pairs_length_eq d1 d2 (extra : list (K * K)) :
  NoDup extra →
  (∀ a b, has_edge d1 a b ↔ has_edge d2 a b ∨ (a, b) ∈ extra) →
  (∀ a b, (a, b) ∈ extra → ¬ has_edge d2 a b) →
  length (edge_pairs d1) = (length (edge_pairs d2) + length extra)%nat.
Proof.
  intros Hextra He Hnew. rewrite <- length_app.
  apply Permutation_length, NoDup_Permutation.
  - apply edge_pairs_NoDup.
  - apply NoDup_app. split_and!; [apply edge_pairs_NoDup | | done].
    intros [a b] Hab%elem_of_edge_pairs Hin. by apply (Hnew a b).
  - intros [a b]. rewrite elem_of_app, !elem_of_edge_pairs. apply He.
Qed.

(** X16. On a directed graph in any state, [add_edge(u, v)] always adds one
    to the length of the edge view, but the number of pairs the view
    iterates grows only when [(u, v)] was not an edge before: the length
    stays equal to the number of iterated pairs exactly when the edge is
    new. *)
Theorem directed_add_edge_len_and_iter dg u v :
  let dg' := state_after (DirectedGraph.add_edge u v dg) in
  len (DirectedGraph.edges dg') = len (DirectedGraph.edges dg) + 1 ∧
  length (directed_iter (DirectedGraph.edges dg'))
  = (length (directed_iter (DirectedGraph.edges dg))
     + (if decide (has_edge (adj (DirectedGraph.base dg)) u v) then 0 else 1))%nat.
Proof.
  destruct (directed_add_edge_spec dg u v) as (d' & b' & -> & _ & _ & He & _).
  simpl. split; [done|].
  unfold directed_iter, DirectedGraph.edges, edges. simpl.
  fold (edge_pairs d'). fold (edge_pairs (adj (DirectedGraph.base dg))).
  destruct (decide (has_edge (adj (DirectedGraph.base dg)) u v)) as [Huv|Huv].
  - rewrite (edge_pairs_length_eq d' (adj (DirectedGraph.base dg)) []); simpl.
    + lia.
    + constructor.
    + intros a b. rewrite He, elem_of_nil. split; [|tauto].
      intros [?|[-> ->]]; auto.
    + by intros a b ?%elem_of_nil.
  - rewrite (edge_pairs_length_eq d' (adj (DirectedGraph.base dg)) [(u, v)]); simpl.
    + done.
    + apply NoDup_singleton.
    + intros a b. rewrite He, list_elem_of_singleton. split.
      * intros [?|[-> ->]]; auto.
      * intros [?|[= -> ->]]; auto.
    + by intros a b [= -> ->]%list_elem_of_singleton.
Qed.

Lemma edge_pairs_remove_node d d' node (succs preds : gset K) :
  (∀ a b, has_edge d' a b ↔ has_edge d a b ∧ a ≠ node ∧ b ≠ node) →
  (∀ a, has_edge d a node ↔ a ∈ preds) →
  (∀ b, has_edge d node b ↔ b ∈ succs) →
  length (edge_pairs d)
  = (length (edge_pairs d')
     + ((if decide (has_edge d node node) then 1 else 0)
        + (size (preds ∖ {[node]}) + size (succs ∖ {[node]}))))%nat.
Proof.
  intros He Hpreds Hsuccs.
  set (loop := if decide (has_edge d node node) then [(node, node)] else []).
  set (ins := (λ p, (p, node)) <$> elements (preds ∖ {[node]})).
  set (outs := (λ s, (node, s)) <$> elements (succs ∖ {[node]})).
  assert (Hloop : ∀ a b, (a, b) ∈ loop ↔ a = node ∧ b = node ∧ has_edge d node node).
  { intros a b. unfold loop. case_decide.
    - rewrite list_elem_of_singleton. naive_solver.
    - rewrite elem_of_nil. naive_solver. }
  assert (Hins : ∀ a b, (a, b) ∈ ins ↔ b = node ∧ a ≠ node ∧ has_edge d a node).
  { intros a b. unfold ins. rewrite list_elem_of_fmap. split.
    - intros (p & [= -> ->] & Hp%elem_of_elements). rewrite Hpreds. set_solver.
    - intros (-> & Ha & Hp%Hpreds). exists a. split; [done|].
      apply elem_of_elements. set_solver. }
  assert (Houts : ∀ a b, (a, b) ∈ outs ↔ a = node ∧ b ≠ node ∧ has_edge d node b).
  { intros a b. unfold outs. rewrite list_elem_of_fmap. split.
    - intros (s & [= -> ->] & Hs%elem_of_elements). rewrite Hsuccs. set_solver.
    - intros (-> & Hb & Hs%Hsuccs). exists b. split; [done|].
      apply elem_of_elements. set_solver. }
  rewrite (edge_pairs_length_eq d d' (loop ++ ins ++ outs)).
  - rewrite !length_app. unfold ins, outs. rewrite !length_fmap.
    change (length (elements (preds ∖ {[node]}))) with (size (preds ∖ {[node]})).
    change (length (elements (succs ∖ {[node]}))) with (size (succs ∖ {[node]})).
    unfold loop. by case_decide.
  - apply NoDup_app. split_and!.
    + unfold loop. case_decide; [apply NoDup_singleton | constructor].
    + intros [a b] (-> & -> & _)%Hloop [(_ & ? & _)%Hins|(_ & ? & _)%Houts]%elem_of_app;
        done.
    + apply NoDup_app. split_and!.
      * apply NoDup_fmap_2; [by intros ?? [=] | apply NoDup_elements].
      * intros [a b] (-> & ? & _)%Hins (? & _ & _)%Houts. done.
      * apply NoDup_fmap_2; [by intros ?? [=] | apply NoDup_elements].
  - intros a b. rewrite !elem_of_app, Hloop, Hins, Houts, He.
    destruct (decide (a = node)) as [->|Ha], (decide (b = node)) as [->|Hb];
      naive_solver.
  - intros a b. rewrite !elem_of_app, Hloop, Hins, Houts, He. naive_solver.
Qed.

(** X17. On a directed graph whose two maps agree and whose edge-view length
    equals the number of pairs the view iterates, [remove_node] of a node
    leaves the length equal to the number of pairs iterated afterwards. *)
Theorem directed_remove_node_keeps_len_exact dg node :
  DirectedGraph.consistent dg → node ∈ DirectedGraph.nodes dg →
  len (DirectedGraph.edges dg)
  = Z.of_nat (length (directed_iter (DirectedGraph.edges dg))) →
  let dg' := state_after (DirectedGraph.remove_node node dg) in
  len (DirectedGraph.edges dg')
  = Z.of_nat (length (directed_iter (DirectedGraph.edges dg'))).
Proof.
  intros Hcons Hnode Hexact. pose proof Hcons as [Hc Hdom].
  unfold DirectedGraph.nodes, nodes in Hnode.
  assert (is_Some (adj (DirectedGraph.base dg) !! node)) as [s Hs]
    by (by apply elem_of_dom).
  assert (is_Some (DirectedGraph.back_adj dg !! node)) as [p Hp]
    by (apply elem_of_dom; by rewrite <- Hdom).
  destruct (directed_remove_node_spec dg node s p Hcons Hs Hp) as (d' & -> & Hd & He).
  assert (node ∈ p ↔ has_edge (adj (DirectedGraph.base dg)) node node) as Hloop.
  { by rewrite <- (has_edge_Some _ _ _ _ Hp), Hc. }
  pose proof (edge_pairs_remove_node (adj (DirectedGraph.base dg)) d' node s p He) as Hlen.
  unfold len, directed_iter, DirectedGraph.edges, edges, DirectedGraph.edge_count in *.
  simpl in *. fold (edge_pairs d'). fold (edge_pairs (adj (DirectedGraph.base dg))) in Hexact.
  rewrite Hexact, Hlen.
  - repeat case_decide; tauto || lia.
  - intros a. by rewrite Hc, (has_edge_Some _ _ _ _ Hp).
  - intros b. by rewrite (has_edge_Some _ _ _ _ Hs).
Qed.

(** A check of [DirectedGraph.consistent] that can be evaluated. *)
Lemma directed_consistent_checked dg :
  dom (adj (DirectedGraph.base dg)) = dom (DirectedGraph.back_adj dg) →
  map_Forall (λ u s, set_Forall (λ v, has_edge (DirectedGraph.back_adj dg) v u) s)
    (adj (DirectedGraph.base dg)) →
  map_Forall (λ v s, set_Forall (λ u, has_edge (adj (DirectedGraph.base dg)) u v) s)
    (DirectedGraph.back_adj dg) →
  DirectedGraph.consistent dg.
Proof.
  rewrite !map_Forall_lookup. intros Hdom Hfwd Hbwd. split; [|done].
  intros u v. split; intros (s & Hs & Hv)%has_edge_lookup.
  - by apply (Hfwd u s).
  - by apply (Hbwd v s).
Qed.

End Further.

(** ** Further concrete runs *)

Lemma undirected_add_edge_inserts_witness :
  (1 : Z) ≠ 3 ∧
  ∃ g', UndirectedGraph.add_edge 1 3
          (UndirectedGraph.run [UndirectedGraph.AddEdge 1 2]) = Done tt g' ∧
        contains (edges g') (3, 1) = Ok true.
Proof.
  split; [done|].
  destruct (undirected_add_edge_inserts [UndirectedGraph.AddEdge 1 2] 1 3)
    as (g' & Hrun & _ & _ & Hc & _); [done|].
  exists g'. by split.
Defined.

Lemma undirected_remove_node_undoes_witness :
  let g := UndirectedGraph.run [UndirectedGraph.AddEdge 1 2] in
  (3 : Z) ∉ nodes g ∧ (1 : Z) ∈ nodes g ∧
  (UndirectedGraph.add_edge 1 3;; UndirectedGraph.remove_node 3) g = Done tt g.
Proof.
  intros g. split; [compute_done|]. split; [compute_done|].
  apply (undirected_remove_node_undoes [UndirectedGraph.AddEdge 1 2] 1 3); compute_done.
Defined.


Lemma undirected_iter_agrees_with_len_witness :
  let calls := [UndirectedGraph.AddEdge 1 2; UndirectedGraph.AddEdge 2 3] in
  enumerates (_adj (edges (UndirectedGraph.run calls))) path_items ∧
  Z.of_nat (length (undirected_iter_from path_items))
  = len (edges (UndirectedGraph.run calls)).
Proof.
  intros calls. split; [compute_done|].
  apply (undirected_iter_agrees_with_len calls path_items). compute_done.
Defined.

Lemma directed_iter_each_edge_once_witness :
  enumerates (_adj (DirectedGraph.edges directed_example))
    [(2, [3; 2]); (3, []); (1, [2])] ∧
  NoDup (directed_iter_from [(2, [3; 2]); (3, []); (1, [2 : Z])]).
Proof.
  split; [compute_done|].
  apply (directed_iter_each_edge_once directed_example [(2, [3; 2]); (3, []); (1, [2])]).
  compute_done.
Defined.

Lemma directed_add_edges_consistent_witness :
  DirectedGraph.consistent directed_example ∧
  DirectedGraph.edge_count
    (foldl (λ s e, state_after (DirectedGraph.add_edge e.1 e.2 s))
       directed_example [(1, 2); (1, 2)])
  = DirectedGraph.edge_count directed_example + 2.
Proof.
  assert (DirectedGraph.consistent directed_example) as Hcons
    by (apply directed_consistent_checked; compute_done).
  split; [done|].
  by destruct (directed_add_edges_consistent directed_example [(1, 2); (1, 2)] Hcons).
Defined.

Lemma directed_remove_node_from_consistent_witness :
  DirectedGraph.consistent directed_example ∧
  (2 : Z) ∈ DirectedGraph.nodes directed_example ∧
  ∃ dg', DirectedGraph.remove_node 2 directed_example = Done tt dg' ∧
         len (DirectedGraph.edges dg') = 0.
Proof.
  assert (DirectedGraph.consistent directed_example) as Hcons
    by (apply directed_consistent_checked; compute_done).
  assert ((2 : Z) ∈ DirectedGraph.nodes directed_example) as Hnode by compute_done.
  split; [done|]. split; [done|].
  destruct (directed_remove_node_from_consistent directed_example 2 Hcons Hnode)
    as (dg' & Hrun & _ & _ & Hlen & _).
  exists dg'. split; [done|]. rewrite Hlen. vm_compute. reflexivity.
Defined.

Lemma directed_remove_node_keeps_len_exact_witness :
  DirectedGraph.consistent directed_example ∧
  (2 : Z) ∈ DirectedGraph.nodes directed_example ∧
  len (DirectedGraph.edges directed_example)
  = Z.of_nat (length (directed_iter (DirectedGraph.edges directed_example))) ∧
  (let dg' := state_after (DirectedGraph.remove_node 2 directed_example) in
   len (DirectedGraph.edges dg')
   = Z.of_nat (length (directed_iter (DirectedGraph.edges dg')))).
Proof.
  assert (DirectedGraph.consistent directed_example) as Hcons
    by (apply directed_consistent_checked; compute_done).
  split; [done|]. split; [compute_done|]. split; [vm_compute; reflexivity|].
  apply (directed_remove_node_keeps_len_exact directed_example 2 Hcons);
    [compute_done | vm_compute; reflexivity].
Defined.
